(** * Ark server: request queue, forfeit collector and sweeper traversal

    A shallow embedding of [server/internal/core/application/utils.go]:
    the tx-request queue ([txRequestsQueue]), the forfeit collector
    ([forfeitTxsMap]) and the sweeper's tree traversal
    ([findSweepableOutputs]), with the properties the specification states
    about them.

    Conventions.
    - Go maps are stdpp [gmap]s.  Go leaves the iteration order of a map
      unspecified; every [for ... range m] is modelled through a class
      [MapRange] that supplies some enumeration of the map's entries, and all
      theorems hold for every instance.
    - [uint64] values are [Z] with the wrap-around of [+] written out
      ([add64]); [int64] likewise ([addi64]).
    - [time.Time] is a number of nanoseconds ([Z]); [time.Now()] is an
      explicit argument [now] of every operation that reads the clock.
    - A method that mutates its receiver and returns an [error] is a function
      from the old state to a pair of the optional error and the new state. *)

From Stdlib Require Import ZArith Lia.
From stdpp Require Import base option list sorting gmap strings pretty.

Local Open Scope Z_scope.

(** ** Data model (package [domain], [ports], [note], [tree]) *)

(** [domain.VtxoKey]: an outpoint [(txid, vout)]; [VOut] is a [uint32]. *)
Record VtxoKey := mkVtxoKey { Txid : string; VOut : N }.

(** [domain.Outpoint], as built by [forfeitTxsMap.init]. *)
Record Outpoint := mkOutpoint { outTxid : string; outVOut : N }.

(** [domain.Vtxo]: the fields the application code reads.  [Amount] is a
    [uint64]. *)
Record Vtxo := mkVtxo { vtxoKey : VtxoKey; Amount : Z }.

(** [domain.Receiver]; [rcvAmount] is a [uint64]. *)
Record Receiver := mkReceiver { rcvDest : string; rcvAmount : Z }.

(** [domain.TxRequest]. *)
Record TxRequest := mkTxRequest {
  Id : string;
  Inputs : list Vtxo;
  Receivers : list Receiver
}.

(** [ports.BoardingInput]: an on-chain outpoint and its amount ([uint64]). *)
Record BoardingInput := mkBoardingInput { biKey : VtxoKey; biAmount : Z }.

(** [note.Note]: [ID] is a [uint64], [Value] a [uint32]. *)
Record Note := mkNote { ID : Z; Value : Z }.

(** [tree.SigningType] and [tree.Musig2]. *)
Inductive SigningType := SignAll | SignBranch.

Record Musig2 := mkMusig2 {
  CosignersPublicKeys : list string;
  SigningType_of : SigningType
}.

(** [timedTxRequest]: a request with what the queue keeps next to it.  The Go
    struct embeds [domain.TxRequest]; [musig2Data] is a pointer, [None] is
    [nil]. *)
Record timedTxRequest := mkTimed {
  txRequest : TxRequest;
  boardingInputs : list BoardingInput;
  notes : list Note;
  timestamp : Z;
  pingTimestamp : Z;
  musig2Data : option Musig2;
  recoveredVtxos : list Vtxo
}.

#[global] Instance VtxoKey_eq_dec : EqDecision VtxoKey.
Proof. solve_decision. Defined.

#[global] Instance Vtxo_eq_dec : EqDecision Vtxo.
Proof. solve_decision. Defined.

#[global] Instance Receiver_eq_dec : EqDecision Receiver.
Proof. solve_decision. Defined.

#[global] Instance TxRequest_eq_dec : EqDecision TxRequest.
Proof. solve_decision. Defined.

#[global] Instance BoardingInput_eq_dec : EqDecision BoardingInput.
Proof. solve_decision. Defined.

#[global] Instance Note_eq_dec : EqDecision Note.
Proof. solve_decision. Defined.

#[global] Instance SigningType_eq_dec : EqDecision SigningType.
Proof. solve_decision. Defined.

#[global] Instance Musig2_eq_dec : EqDecision Musig2.
Proof. solve_decision. Defined.

#[global] Instance timedTxRequest_eq_dec : EqDecision timedTxRequest.
Proof. solve_decision. Defined.

#[global] Instance VtxoKey_countable : Countable VtxoKey.
Proof.
  refine (inj_countable' (λ k, (Txid k, VOut k))
                         (λ p, mkVtxoKey p.1 p.2) _).
  by intros [].
Defined.

(** The errors returned by the functions below, one constructor for each
    [fmt.Errorf] format or error type of the source. *)
Inductive error :=
  | ErrDuplicatedTxRequest (id : string)
  | ErrDuplicatedNote (n : Note)
  | ErrDuplicatedInput (txid : string) (vout : N) (usedBy : string)
  | ErrDuplicatedBoardingInput (txid : string) (vout : N) (usedBy : string)
  | ErrDuplicatedVtxoRecovery (txid : string) (vout : N) (usedBy : string)
  | errTxRequestNotFound (id : string)
  | ErrSumMismatch (sumOfInputs sumOfOutputs : Z)
  | ErrNoConnectors
  | ErrMoreVtxosThanOutpoints (vtxos outpoints : nat)
  | ErrMissingForfeit (vtxo : VtxoKey)
  | ErrForfeitsNotInitialized
  | ErrUnexpectedForfeit (vtxo : VtxoKey)
  | ErrTxNotFound (txid : string)
  | ErrExternal (msg : string).

(** ** Machine arithmetic and time *)

Definition add64 (a b : Z) : Z := (a + b) mod 2 ^ 64.

(** [for _, x := range xs { sum += f(x) }] on a [uint64] accumulator. *)
Definition sum64 {A} (f : A → Z) (xs : list A) (acc : Z) : Z :=
  foldl (λ s x, add64 s (f x)) acc xs.

Definition maxInt64 : Z := 2 ^ 63 - 1.
Definition minInt64 : Z := - 2 ^ 63.

(** The zero [time.Time{}]. *)
Definition zeroTime : Z := 0.

(** [time.Since(t)] at clock reading [now]: [now.Sub(t)], a [Duration] in
    nanoseconds that saturates at the ends of [int64]. *)
Definition time_Since (now t : Z) : Z :=
  Z.max minInt64 (Z.min maxInt64 (now - t)).

Definition nanosPerMinute : Z := 60 * 1000000000.

Definition selectGapMinutes : Z := 1.
Definition deleteGapMinutes : Z := 5.

(** [d.Minutes() > gap] for a whole number of minutes [gap].  [Minutes]
    returns [float64(d / Minute) + float64(d % Minute) / 6e10], a [float64].
    The first summand is a whole number and exact; the second is below 1 in
    absolute value and, when it is not 0, at least [1/6e10] away from 0 and
    from 1, far more than the spacing of the [float64] values near the gaps
    used here (1 and 5).  So the rounded sum exceeds [gap] exactly when [d]
    exceeds [gap] minutes, and the comparison is modelled on the nanoseconds. *)
Definition minutes_gt (d gap : Z) : bool := bool_decide (gap * nanosPerMinute < d).

(** ** Iterating over a Go map *)

(** Some enumeration of the entries of a map, each exactly once. *)
Class MapRange (K V : Type) `{Countable K} := {
  range : gmap K V → list (K * V);
  range_perm : ∀ m, range m ≡ₚ map_to_list m
}.

(** ** The request queue *)

Section queue.
Context `{!MapRange string timedTxRequest}.

(** [len]: the requests that have receivers. *)
Definition len (m : gmap string timedTxRequest) : Z :=
  Z.of_nat (length (filter (λ kp, 0 < length (Receivers (txRequest kp.2)))%nat
                           (range m))).

(** The first hit of
    [for x in news { for p in m.requests { for y in proj p { if same x y }}}]. *)
Definition first_clash {A B} (same : A → B → bool)
    (proj : timedTxRequest → list B) (news : list A)
    (m : gmap string timedTxRequest) : option (A * timedTxRequest) :=
  head (x ← news; kp ← range m; y ← proj kp.2;
        if same x y then [(x, kp.2)] else []).

Definition same_note (a b : Note) : bool := bool_decide (ID a = ID b).

Definition same_outpoint (a b : VtxoKey) : bool :=
  bool_decide (Txid a = Txid b) && bool_decide (VOut a = VOut b).

Definition pushWithNotes (now : Z) (request : TxRequest) (ns : list Note)
    (m : gmap string timedTxRequest)
    : option error * gmap string timedTxRequest :=
  match m !! Id request with
  | Some _ => (Some (ErrDuplicatedTxRequest (Id request)), m)
  | None =>
    match first_clash same_note notes ns m with
    | Some (n, _) => (Some (ErrDuplicatedNote n), m)
    | None =>
      (None, <[Id request := mkTimed request [] ns now zeroTime None []]> m)
    end
  end.

Definition push (now : Z) (request : TxRequest) (bis : list BoardingInput)
    (recovered : list Vtxo) (musig2 : option Musig2)
    (m : gmap string timedTxRequest)
    : option error * gmap string timedTxRequest :=
  match m !! Id request with
  | Some _ => (Some (ErrDuplicatedTxRequest (Id request)), m)
  | None =>
    match first_clash (λ a b, same_outpoint (vtxoKey a) (vtxoKey b))
                      (λ p, Inputs (txRequest p)) (Inputs request) m with
    | Some (input, pay) =>
      (Some (ErrDuplicatedInput (Txid (vtxoKey input)) (VOut (vtxoKey input))
                                (Id (txRequest pay))), m)
    | None =>
      match first_clash (λ a b, same_outpoint (biKey a) (biKey b))
                        boardingInputs bis m with
      | Some (input, r) =>
        (Some (ErrDuplicatedBoardingInput (Txid (biKey input))
                 (VOut (biKey input)) (Id (txRequest r))), m)
      | None =>
        match first_clash (λ a b, same_outpoint (vtxoKey a) (vtxoKey b))
                          recoveredVtxos recovered m with
        | Some (v, r) =>
          (Some (ErrDuplicatedVtxoRecovery (Txid (vtxoKey v))
                   (VOut (vtxoKey v)) (Id (txRequest r))), m)
        | None =>
          (None,
           <[Id request := mkTimed request bis [] now now musig2 recovered]> m)
        end
      end
    end
  end.

(** The [for ... range m.requests] loop of [pop].  [it] is what remains of
    the enumeration, [cur] the map as the loop has left it so far (an entry
    deleted before the loop reaches it is not produced), [acc] is
    [requestsByTime]. *)
Fixpoint pop_scan (now : Z) (it : list (string * timedTxRequest))
    (cur : gmap string timedTxRequest) (acc : list timedTxRequest)
    : gmap string timedTxRequest * list timedTxRequest :=
  match it with
  | [] => (cur, acc)
  | (k, _) :: it' =>
    match cur !! k with
    | None => pop_scan now it' cur acc
    | Some p =>
      if bool_decide (length (Receivers (txRequest p)) ≤ 0)%nat then
        pop_scan now it' cur acc
      else
        let sinceLastPing := time_Since now (pingTimestamp p) in
        if minutes_gt sinceLastPing selectGapMinutes then
          if minutes_gt sinceLastPing deleteGapMinutes then
            pop_scan now it' (delete (Id (txRequest p)) cur) acc
          else pop_scan now it' cur acc
        else pop_scan now it' cur (acc ++ [p])
    end
  end.

(** [sort.SliceStable]: the stable sort, here by insertion. *)
Fixpoint insert_by {A} (less : A → A → bool) (x : A) (l : list A) : list A :=
  match l with
  | [] => [x]
  | y :: l' => if less y x then y :: insert_by less x l' else x :: y :: l'
  end.

Definition sort_SliceStable {A} (less : A → A → bool) (l : list A) : list A :=
  foldr (insert_by less) [] l.

(** [a.timestamp.Before(b.timestamp)]. *)
Definition born_before (a b : timedTxRequest) : bool :=
  bool_decide (timestamp a < timestamp b).

(** The requests [pop] selects: the eligible ones in order of birth, cut to
    [num] of them. *)
Definition pop_taken (now num : Z) (m : gmap string timedTxRequest)
    : list timedTxRequest :=
  let requestsByTime := sort_SliceStable born_before (pop_scan now (range m) m []).2 in
  let n := Z.of_nat (length requestsByTime) in
  let num := if bool_decide (num < 0) || bool_decide (n < num) then n else num in
  take (Z.to_nat num) requestsByTime.

(** What [pop] returns: requests, boarding inputs, notes, musig2 data and
    recovered vtxos of the selected requests. *)
Record popped := mkPopped {
  poppedRequests : list TxRequest;
  poppedBoardingInputs : list BoardingInput;
  poppedNotes : list Note;
  poppedMusig2Data : list (option Musig2);
  poppedRecoveredVtxos : list Vtxo
}.

Definition pop (now num : Z) (m : gmap string timedTxRequest)
    : popped * gmap string timedTxRequest :=
  let cur := (pop_scan now (range m) m []).1 in
  let taken := pop_taken now num m in
  (mkPopped (txRequest <$> taken) (taken ≫= boardingInputs) (taken ≫= notes)
            (musig2Data <$> taken) (taken ≫= recoveredVtxos),
   foldl (λ acc p, delete (Id (txRequest p)) acc) cur taken).

(** The sums [update] compares. *)
Definition sumOfInputs (request : TxRequest) (r : timedTxRequest) : Z :=
  sum64 Amount (recoveredVtxos r)
    (sum64 Value (notes r)
      (sum64 biAmount (boardingInputs r)
        (sum64 Amount (Inputs request) 0))).

Definition sumOfOutputs (request : TxRequest) : Z :=
  sum64 rcvAmount (Receivers request) 0.

Definition update (request : TxRequest) (musig2 : option Musig2)
    (m : gmap string timedTxRequest)
    : option error * gmap string timedTxRequest :=
  match m !! Id request with
  | None => (Some (errTxRequestNotFound (Id request)), m)
  | Some r =>
    if bool_decide (sumOfInputs request r ≠ sumOfOutputs request) then
      (Some (ErrSumMismatch (sumOfInputs request r) (sumOfOutputs request)), m)
    else
      (None,
       <[Id request :=
           mkTimed request (boardingInputs r) (notes r) (timestamp r)
                   (pingTimestamp r)
                   (match musig2 with Some d => Some d | None => musig2Data r end)
                   (recoveredVtxos r)]> m)
  end.

Definition updatePingTimestamp (now : Z) (id : string)
    (m : gmap string timedTxRequest)
    : option error * gmap string timedTxRequest :=
  match m !! id with
  | None => (Some (errTxRequestNotFound id), m)
  | Some request =>
    (None,
     <[id := mkTimed (txRequest request) (boardingInputs request)
               (notes request) (timestamp request) now (musig2Data request)
               (recoveredVtxos request)]> m)
  end.

(** [delete(ids)] and [deleteAll]; they return no error. *)
Definition delete_ids (ids : list string) (m : gmap string timedTxRequest)
    : gmap string timedTxRequest :=
  foldl (λ acc id, delete id acc) m ids.

Definition deleteAll (m : gmap string timedTxRequest)
    : gmap string timedTxRequest := ∅.

Definition view (id : string) (m : gmap string timedTxRequest)
    : option TxRequest :=
  (λ r, mkTxRequest (Id (txRequest r)) (Inputs (txRequest r))
                    (Receivers (txRequest r))) <$> m !! id.
End queue.

(** ** Transaction trees (package [tree]) *)

(** [tree.Node]. *)
Record Node := mkNode {
  nodeTxid : string;
  nodeTx : string;
  ParentTxid : string;
  Leaf : bool
}.

(** [tree.TxTree] is [[][]Node]: the levels of the tree, root level first. *)
Abbreviation TxTree := (list (list Node)).

(** The two methods of [tree.TxTree] that the application calls.  Their
    bodies are in package [tree]; the functions below take them as given. *)
Class TxTreeOps := {
  Leaves : TxTree → list Node;
  Children : TxTree → string → list Node
}.

(** [common.RelativeLocktime]; [ltValue] is a [uint32]. *)
Inductive LocktimeType := LocktimeTypeBlock | LocktimeTypeSecond.

Record RelativeLocktime := mkLocktime {
  ltType : LocktimeType;
  ltValue : Z
}.

(** [ports.TimeUnit]. *)
Inductive TimeUnit := UnixTime | BlockHeight.

(** [ports.WalletService], the method the application calls here: the
    confirmation status of a txid, with block height and block time.  The
    answers the wallet gives during one traversal are taken to be a function
    of the txid. *)
Class WalletService := {
  IsTransactionConfirmed : string → error + (bool * Z * Z)
}.

(** [ports.TxBuilder], the methods the application calls here.
    [SweepInput] is the type behind the interface [ports.SweepInput]. *)
Class TxBuilder (SweepInput : Type) := {
  GetSweepInput : Node → error + (RelativeLocktime * SweepInput);
  VerifyForfeitTxs :
    list Vtxo → TxTree → list string → gmap string Outpoint →
    error + gmap VtxoKey string
}.

(** ** The forfeit collector *)

(** Modelled from the spec: [VtxoKey.String] is in package [domain]; the
    spec writes the string as [(txid:vout)], the vout in decimal. *)
Definition VtxoKey_String (k : VtxoKey) : string :=
  Txid k +:+ ":" +:+ pretty (VOut k).

(** The comparison [sort.Slice] is called with in [init]: Go's [<] on
    strings, the lexicographic order on bytes. *)
Definition vtxo_less (a b : Vtxo) : bool :=
  String.ltb (VtxoKey_String (vtxoKey a)) (VtxoKey_String (vtxoKey b)).

(** [sort.Slice]: not stable, so all that is known of its result is that it
    is a rearrangement of the slice in which no element is less than an
    earlier one. *)
Class SortSlice := {
  sort_Slice : list Vtxo → list Vtxo;
  sort_Slice_perm : ∀ l, sort_Slice l ≡ₚ l;
  sort_Slice_sorted : ∀ l i j a b,
    sort_Slice l !! i = Some a → sort_Slice l !! j = Some b →
    (i < j)%nat → vtxo_less b a = false
}.

(** [forfeitTxsMap] without its lock and its builder (the builder is the
    [TxBuilder] instance).  A [nil] map or slice is the empty one. *)
Record forfeitTxsMap := mkForfeits {
  forfeitTxs : gmap VtxoKey string;
  connectors : TxTree;
  connectorsIndex : gmap string Outpoint;
  vtxos : list Vtxo
}.

Definition newForfeitTxsMap : forfeitTxsMap := mkForfeits ∅ [] ∅ [].

Section forfeits.
Context `{!TxTreeOps} `{!SortSlice} `{!MapRange VtxoKey string}.
Context {SweepInput : Type} `{!TxBuilder SweepInput}.

(** [for i, vtxo := range vtxosToSign { connectorsIndex[vtxo.String()] = connectorsOutpoints[i] }]:
    never out of range, the caller has compared the lengths. *)
Definition bind_connectors (vtxosToSign : list Vtxo)
    (connectorsOutpoints : list Outpoint) : gmap string Outpoint :=
  foldl (λ idx vo, <[VtxoKey_String (vtxoKey vo.1) := vo.2]> idx) ∅
        (zip vtxosToSign connectorsOutpoints).

Definition init (conns : TxTree) (requests : list TxRequest)
    (m : forfeitTxsMap) : option error * forfeitTxsMap :=
  let vtxosToSign := requests ≫= Inputs in
  let txs := foldl (λ acc v, <[vtxoKey v := ""]> acc) (forfeitTxs m) vtxosToSign in
  if bool_decide (0 < length vtxosToSign)%nat then
    let leaves := Leaves conns in
    if bool_decide (length leaves = 0%nat) then
      (Some ErrNoConnectors,
       mkForfeits txs conns (connectorsIndex m) vtxosToSign)
    else
      let connectorsOutpoints := (λ n, mkOutpoint (nodeTxid n) 0) <$> leaves in
      (* the sort is in place, and [m.vtxos] is the same slice *)
      let sorted := sort_Slice vtxosToSign in
      if bool_decide (length connectorsOutpoints < length sorted)%nat then
        (Some (ErrMoreVtxosThanOutpoints (length sorted)
                                         (length connectorsOutpoints)),
         mkForfeits txs conns (connectorsIndex m) sorted)
      else
        (None,
         mkForfeits txs conns (bind_connectors sorted connectorsOutpoints)
                    sorted)
  else (None, mkForfeits txs conns ∅ vtxosToSign).

Definition reset (m : forfeitTxsMap) : forfeitTxsMap := mkForfeits ∅ [] ∅ [].

(** The loop of [pop] over an enumeration of [forfeitTxs]. *)
Fixpoint collect_forfeits (it : list (VtxoKey * string)) (txs : list string)
    : error + list string :=
  match it with
  | [] => inr txs
  | (vtxo, forfeit) :: it' =>
    if bool_decide (String.length forfeit = 0%nat) then
      inl (ErrMissingForfeit vtxo)
    else collect_forfeits it' (txs ++ [forfeit])
  end.

(** [pop]: the deferred [reset] runs on both ways out. *)
Definition forfeits_pop (m : forfeitTxsMap)
    : (error + list string) * forfeitTxsMap :=
  (collect_forfeits (range (forfeitTxs m)) [], reset m).

Fixpoint all_nonempty (it : list (VtxoKey * string)) : bool :=
  match it with
  | [] => true
  | (_, txs) :: it' =>
    if bool_decide (String.length txs = 0%nat) then false else all_nonempty it'
  end.

Definition allSigned (m : forfeitTxsMap) : bool :=
  all_nonempty (range (forfeitTxs m)).

(** The loop of [sign] over the verified transactions: it stops at the
    first vtxo that is not in the batch, keeping what it has stored. *)
Fixpoint store_forfeits (it : list (VtxoKey * string))
    (txs : gmap VtxoKey string) : option error * gmap VtxoKey string :=
  match it with
  | [] => (None, txs)
  | (k, tx) :: it' =>
    match txs !! k with
    | None => (Some (ErrUnexpectedForfeit k), txs)
    | Some _ => store_forfeits it' (<[k := tx]> txs)
    end
  end.

Definition sign (txs : list string) (m : forfeitTxsMap)
    : option error * forfeitTxsMap :=
  if bool_decide (length txs = 0%nat) then (None, m)
  else if bool_decide (length (vtxos m) = 0%nat)
          || bool_decide (length (connectors m) = 0%nat) then
    (Some ErrForfeitsNotInitialized, m)
  else
    match VerifyForfeitTxs (vtxos m) (connectors m) txs (connectorsIndex m) with
    | inl err => (Some err, m)
    | inr validTxs =>
      let r := store_forfeits (range validTxs) (forfeitTxs m) in
      (r.1, mkForfeits r.2 (connectors m) (connectorsIndex m) (vtxos m))
    end.
End forfeits.

(** ** The sweeper's traversal *)

(** [int64] addition. *)
Definition addi64 (a b : Z) : Z := (a + b + 2 ^ 63) mod 2 ^ 64 - 2 ^ 63.

(** How a run of [findSweepableOutputs] ends.  [Panicked] is the index out of
    range of [vtxoTree[0]] on an empty tree; [OutOfFuel] is not an outcome of
    the program but of the bound on the iterations of its outer loop. *)
Inductive outcome (A : Type) :=
  | Returned (a : A)
  | Failed (e : error)
  | Panicked
  | OutOfFuel.
Arguments Returned {A} a.
Arguments Failed {A} e.
Arguments Panicked {A}.
Arguments OutOfFuel {A}.

Section sweeper.
Context `{!TxTreeOps} `{!WalletService}.
Context {SweepInput : Type} `{!TxBuilder SweepInput}.

(** What is kept in [blocktimeCache] for a confirmed transaction. *)
Definition cached_time (schedulerUnit : TimeUnit) (height blocktime : Z) : Z :=
  match schedulerUnit with BlockHeight => height | UnixTime => blocktime end.

(** The state of the loops: [sweepableOutputs], [blocktimeCache] and
    [newNodesToCheck]. *)
Record sweepState := mkSweep {
  sweepableOutputs : gmap Z (list SweepInput);
  blocktimeCache : gmap string Z;
  newNodesToCheck : list Node
}.

(** One turn of the inner loop, for [node]. *)
Definition check_node (schedulerUnit : TimeUnit) (vtxoTree : TxTree)
    (node : Node) (st : sweepState) : error + sweepState :=
  match IsTransactionConfirmed (nodeTxid node) with
  | inl err => inl err
  | inr (isConfirmed, height, blocktime) =>
    if isConfirmed then
      inr (mkSweep (sweepableOutputs st)
             (<[nodeTxid node := cached_time schedulerUnit height blocktime]>
                (blocktimeCache st))
             (if Leaf node then newNodesToCheck st
              else newNodesToCheck st ++ Children vtxoTree (nodeTxid node)))
    else
      let cache :=
        match blocktimeCache st !! ParentTxid node with
        | Some _ => inr (blocktimeCache st)
        | None =>
          match IsTransactionConfirmed (ParentTxid node) with
          | inr (true, height, blocktime) =>
            inr (<[ParentTxid node := cached_time schedulerUnit height blocktime]>
                   (blocktimeCache st))
          | _ => inl (ErrTxNotFound (ParentTxid node))
          end
        end in
      match cache with
      | inl err => inl err
      | inr cache =>
        match GetSweepInput node with
        | inl err => inl err
        | inr (vtxoTreeExpiry, sweepInput) =>
          let expirationTime :=
            addi64 (default 0 (cache !! ParentTxid node))
                   (ltValue vtxoTreeExpiry) in
          inr (mkSweep
                 (<[expirationTime :=
                      default [] (sweepableOutputs st !! expirationTime)
                      ++ [sweepInput]]> (sweepableOutputs st))
                 cache (newNodesToCheck st))
        end
      end
  end.

(** The inner loop, [for _, node := range nodesToCheck]. *)
Fixpoint check_nodes (schedulerUnit : TimeUnit) (vtxoTree : TxTree)
    (nodesToCheck : list Node) (st : sweepState) : error + sweepState :=
  match nodesToCheck with
  | [] => inr st
  | node :: rest =>
    match check_node schedulerUnit vtxoTree node st with
    | inl err => inl err
    | inr st' => check_nodes schedulerUnit vtxoTree rest st'
    end
  end.

(** The outer loop, [for len(nodesToCheck) > 0], run at most [fuel] times. *)
Fixpoint sweep_loop (fuel : nat) (schedulerUnit : TimeUnit) (vtxoTree : TxTree)
    (nodesToCheck : list Node) (outputs : gmap Z (list SweepInput))
    (cache : gmap string Z) : outcome (gmap Z (list SweepInput)) :=
  match nodesToCheck with
  | [] => Returned outputs
  | _ :: _ =>
    match fuel with
    | O => OutOfFuel
    | S fuel' =>
      match check_nodes schedulerUnit vtxoTree nodesToCheck
                        (mkSweep outputs cache []) with
      | inl err => Failed err
      | inr st =>
        sweep_loop fuel' schedulerUnit vtxoTree (newNodesToCheck st)
                   (sweepableOutputs st) (blocktimeCache st)
      end
    end
  end.

Definition findSweepableOutputs (fuel : nat) (schedulerUnit : TimeUnit)
    (vtxoTree : TxTree) : outcome (gmap Z (list SweepInput)) :=
  match vtxoTree with
  | [] => Panicked
  | root :: _ => sweep_loop fuel schedulerUnit vtxoTree root ∅ ∅
  end.
End sweeper.

(** * Properties *)

(** ** Enumerations of a map *)

(** One enumeration a Go map can be ranged over in: stdpp's. *)
#[global] Program Instance range_map_to_list {K V} `{Countable K} : MapRange K V :=
  {| range := map_to_list |}.
Next Obligation. done. Qed.

Section range_facts.
Context {K V : Type} `{Countable K} `{!MapRange K V}.

Lemma elem_of_range (m : gmap K V) k v : (k, v) ∈ range m ↔ m !! k = Some v.
Proof. rewrite (range_perm m). apply elem_of_map_to_list. Qed.

Lemma NoDup_fst_range (m : gmap K V) : NoDup (range m).*1.
Proof. rewrite (range_perm m). apply NoDup_fst_map_to_list. Qed.

Lemma elem_of_range_snd (m : gmap K V) v :
  v ∈ (range m).*2 ↔ ∃ k, m !! k = Some v.
Proof.
  rewrite list_elem_of_fmap. split.
  - intros [[k v'] [-> Hin]]. exists k. by apply elem_of_range.
  - intros [k Hk]. exists (k, v). split; [done|]. by apply elem_of_range.
Qed.
End range_facts.

(** ** The request queue *)

(** The invariant of the queue: a request is stored under its own id.  It
    holds of the empty queue and every operation keeps it. *)
Definition wf_queue (m : gmap string timedTxRequest) : Prop :=
  ∀ k r, m !! k = Some r → Id (txRequest r) = k.

(** The conditions of [pop], named after the spec. *)
Definition has_receivers (p : timedTxRequest) : bool :=
  bool_decide (0 < length (Receivers (txRequest p)))%nat.

(** More than [gap] minutes since the last ping, at clock reading [now]. *)
Definition ping_older (now gap : Z) (p : timedTxRequest) : bool :=
  bool_decide (gap * nanosPerMinute < now - pingTimestamp p).

(** Returned by an unbounded [pop]: has receivers and pinged in the last minute. *)
Definition eligible (now : Z) (p : timedTxRequest) : bool :=
  has_receivers p && negb (ping_older now selectGapMinutes p).

(** Dropped by [pop]: has receivers and no ping for more than five minutes. *)
Definition stale (now : Z) (p : timedTxRequest) : bool :=
  has_receivers p && ping_older now deleteGapMinutes p.

Lemma minutes_gt_Since now gap p :
  0 ≤ gap ≤ 5 →
  minutes_gt (time_Since now (pingTimestamp p)) gap = ping_older now gap p.
Proof.
  intros Hgap. unfold minutes_gt, ping_older, time_Since, nanosPerMinute,
    maxInt64, minInt64.
  apply bool_decide_ext. lia.
Qed.

Section queue_facts.
Context `{!MapRange string timedTxRequest}.

Lemma wf_queue_empty : wf_queue ∅.
Proof. intros k r. by rewrite lookup_empty. Qed.

Lemma wf_queue_insert m r :
  wf_queue m → wf_queue (<[Id (txRequest r) := r]> m).
Proof.
  intros Hwf k r'. rewrite lookup_insert. case_decide; [naive_solver|].
  apply Hwf.
Qed.

End queue_facts.

(** *** Pings *)

(** [UpdatePing(id)] called once for each clock reading of [times], in order:
    the errors returned and the queue left behind. *)
Definition ping_many `{!MapRange string timedTxRequest} (id : string)
    (times : list Z) (m : gmap string timedTxRequest)
    : list (option error) * gmap string timedTxRequest :=
  foldl (λ st t, let r := updatePingTimestamp t id st.2 in (st.1 ++ [r.1], r.2))
        ([], m) times.

(** A request with its ping timestamp replaced. *)
Definition with_ping (t : Z) (r : timedTxRequest) : timedTxRequest :=
  mkTimed (txRequest r) (boardingInputs r) (notes r) (timestamp r) t
          (musig2Data r) (recoveredVtxos r).

Section ping_facts.
Context `{!MapRange string timedTxRequest}.

Lemma updatePingTimestamp_present m id r t :
  m !! id = Some r →
  updatePingTimestamp t id m = (None, <[id := with_ping t r]> m).
Proof. intros Hr. unfold updatePingTimestamp. by rewrite Hr. Qed.

Lemma updatePingTimestamp_absent m id t :
  m !! id = None →
  updatePingTimestamp t id m = (Some (errTxRequestNotFound id), m).
Proof. intros Hr. unfold updatePingTimestamp. by rewrite Hr. Qed.

Lemma ping_many_snoc id times t m :
  ping_many id (times ++ [t]) m =
  ((ping_many id times m).1 ++ [(updatePingTimestamp t id (ping_many id times m).2).1],
   (updatePingTimestamp t id (ping_many id times m).2).2).
Proof. unfold ping_many. by rewrite foldl_app. Qed.

Lemma ping_many_present id times m r :
  m !! id = Some r →
  ping_many id times m =
  (replicate (length times) None,
   match last times with
   | Some t => <[id := with_ping t r]> m
   | None => m
   end).
Proof.
  intros Hr. induction times as [|t times IH] using rev_ind; [done|].
  rewrite ping_many_snoc, IH, last_snoc, length_app. simpl.
  assert (∃ r', (match last times with
                 | Some t0 => <[id := with_ping t0 r]> m
                 | None => m end) !! id = Some r'
                ∧ with_ping t r' = with_ping t r
                ∧ <[id := with_ping t r]>
                    (match last times with
                     | Some t0 => <[id := with_ping t0 r]> m
                     | None => m end) = <[id := with_ping t r]> m)
    as (r' & Hr' & Heq & Hm).
  { destruct (last times) as [t0|].
    - exists (with_ping t0 r). rewrite lookup_insert_eq, insert_insert_eq. done.
    - by exists r. }
  rewrite (updatePingTimestamp_present _ _ _ _ Hr'). simpl.
  rewrite Heq, Hm. f_equal.
  rewrite Nat.add_1_r. by rewrite replicate_S_end.
Qed.

Lemma ping_many_absent id times m :
  m !! id = None →
  ping_many id times m =
  (replicate (length times) (Some (errTxRequestNotFound id)), m).
Proof.
  intros Hr. induction times as [|t times IH] using rev_ind; [done|].
  rewrite ping_many_snoc, IH. simpl.
  rewrite (updatePingTimestamp_absent _ _ _ Hr), length_app. simpl.
  rewrite Nat.add_1_r. f_equal. symmetry. apply replicate_S_end.
Qed.

(** C6.  For an id present in the queue, [UpdatePing] called N ≥ 1 times
    returns no error at any call and leaves the queue that the last call
    alone would leave: the stored request with its ping timestamp set to the
    time of the latest call, every other field and every other request
    untouched.  After each call the ping timestamp is the time of that call,
    so under a clock that does not run backwards it only moves forward.  For
    an absent id every call returns the not-found error and the queue is
    unchanged. *)
Theorem updatePing_idempotent (m : gmap string timedTxRequest) (id : string)
    (times : list Z) (t : Z) :
  (∀ r, m !! id = Some r →
     ping_many id (times ++ [t]) m =
       (replicate (S (length times)) None, (updatePingTimestamp t id m).2)
     ∧ (updatePingTimestamp t id m).2 = <[id := with_ping t r]> m
     ∧ (∀ k, k < length times →
          pingTimestamp <$> (ping_many id (take (S k) times) m).2 !! id
          = times !! k)%nat)
  ∧ (m !! id = None →
     updatePingTimestamp t id m = (Some (errTxRequestNotFound id), m)
     ∧ ping_many id (times ++ [t]) m =
         (replicate (S (length times)) (Some (errTxRequestNotFound id)), m)).
Proof.
  split.
  - intros r Hr. rewrite (ping_many_present _ _ _ _ Hr), last_snoc, length_app.
    rewrite (updatePingTimestamp_present _ _ _ _ Hr). simpl.
    split. { rewrite Nat.add_1_r. done. }
    split; [done|].
    intros k Hk. rewrite (ping_many_present _ _ _ _ Hr). simpl.
    destruct (lookup_lt_is_Some_2 times k Hk) as [tk Htk].
    rewrite (take_S_r _ _ _ Htk), last_snoc, lookup_insert_eq. by rewrite Htk.
  - intros Hr. split; [by apply updatePingTimestamp_absent|].
    rewrite (ping_many_absent _ _ _ Hr), length_app. simpl.
    by rewrite Nat.add_1_r.
Qed.
End ping_facts.

(** ** The forfeit collector: completeness and pop *)

Lemma string_length_0 (s : string) : String.length s = 0%nat ↔ s = "".
Proof. by destruct s. Qed.

Section forfeit_facts.
Context `{!TxTreeOps} `{!SortSlice} `{!MapRange VtxoKey string}.
Context {SweepInput : Type} `{!TxBuilder SweepInput}.

Lemma all_nonempty_spec (it : list (VtxoKey * string)) :
  all_nonempty it = true ↔ ∀ k tx, (k, tx) ∈ it → tx ≠ "".
Proof.
  induction it as [|[k tx] it IH]; simpl.
  - split; [|done]. intros _ k tx Hin. by apply elem_of_nil in Hin.
  - case_bool_decide as Hlen.
    + apply string_length_0 in Hlen as ->. split; [done|].
      intros Hall. exfalso. apply (Hall k ""); [left|done].
    + rewrite IH. split.
      * intros Hall k' tx' [[= -> ->]|Hin]%elem_of_cons; [|by eapply Hall].
        by rewrite <-string_length_0.
      * intros Hall k' tx' Hin. apply (Hall k'). by right.
Qed.

Lemma collect_forfeits_all (it : list (VtxoKey * string)) (txs : list string) :
  (∀ k tx, (k, tx) ∈ it → tx ≠ "") →
  collect_forfeits it txs = inr (txs ++ it.*2).
Proof.
  revert txs. induction it as [|[k tx] it IH]; intros txs Hall; simpl.
  - by rewrite app_nil_r.
  - case_bool_decide as Hlen.
    + apply string_length_0 in Hlen as ->. exfalso.
      apply (Hall k ""); [left|done].
    + rewrite IH, <-app_assoc; [done|].
      intros k' tx' Hin. apply (Hall k'). by right.
Qed.

Lemma collect_forfeits_missing (it : list (VtxoKey * string)) (txs : list string) :
  (∃ k, (k, "") ∈ it) →
  ∃ k, collect_forfeits it txs = inl (ErrMissingForfeit k) ∧ (k, "") ∈ it.
Proof.
  revert txs. induction it as [|[k tx] it IH]; intros txs [k0 Hin]; simpl.
  - by apply elem_of_nil in Hin.
  - case_bool_decide as Hlen.
    + apply string_length_0 in Hlen as ->. exists k. split; [done|left].
    + apply elem_of_cons in Hin as [[= -> <-]|Hin]; [done|].
      destruct (IH (txs ++ [tx])) as (k1 & Hk1 & Hin1); [by exists k0|].
      exists k1. split; [done|by right].
Qed.

(** C2.  [allSigned] is true exactly when every entry of the forfeit map
    holds a non-empty transaction.  When every entry is non-empty [pop]
    returns one transaction for each entry, the whole collected set; when
    some entry is empty [pop] fails with the missing-forfeit error for a vtxo
    whose entry is empty.  On both ways out [pop] leaves the forfeit map, the
    connectors, the connector index and the vtxo list empty. *)
Theorem forfeits_allSigned_pop (m : forfeitTxsMap) :
  (allSigned m = true ↔ ∀ k tx, forfeitTxs m !! k = Some tx → tx ≠ "")
  ∧ ((∀ k tx, forfeitTxs m !! k = Some tx → tx ≠ "") →
     ∃ txs, (forfeits_pop m).1 = inr txs
            ∧ txs ≡ₚ (map_to_list (forfeitTxs m)).*2
            ∧ ∀ tx, tx ∈ txs ↔ ∃ k, forfeitTxs m !! k = Some tx)
  ∧ ((∃ k, forfeitTxs m !! k = Some "") →
     ∃ k, (forfeits_pop m).1 = inl (ErrMissingForfeit k)
          ∧ forfeitTxs m !! k = Some "")
  ∧ forfeitTxs (forfeits_pop m).2 = ∅
  ∧ connectors (forfeits_pop m).2 = []
  ∧ connectorsIndex (forfeits_pop m).2 = ∅
  ∧ vtxos (forfeits_pop m).2 = [].
Proof.
  split; [|split; [|split]].
  - unfold allSigned. rewrite all_nonempty_spec.
    split; intros Hall k tx Hk; apply (Hall k); by apply elem_of_range.
  - intros Hall. exists ((range (forfeitTxs m)).*2). simpl.
    split; [|split].
    + rewrite collect_forfeits_all; [done|].
      intros k tx Hin%elem_of_range. by eapply Hall.
    + by rewrite (range_perm (forfeitTxs m)).
    + intros tx. apply elem_of_range_snd.
  - intros [k Hk]. simpl.
    destruct (collect_forfeits_missing (range (forfeitTxs m)) []) as (k1 & Hk1 & Hin).
    { exists k. by apply elem_of_range. }
    exists k1. split; [done|]. by apply elem_of_range.
  - done.
Qed.
End forfeit_facts.

(** ** The request queue: pop *)

(** *** The stable sort *)

Section sort_by_less.
Context {A : Type} (less : A → A → bool).
Hypothesis less_asym : ∀ a b, less a b = true → less b a = false.
Hypothesis less_neg_trans : ∀ a b c,
  less b a = false → less c b = false → less c a = false.

Lemma insert_by_perm x l : insert_by less x l ≡ₚ x :: l.
Proof.
  induction l as [|y l IH]; simpl; [done|].
  destruct (less y x); [|done]. by rewrite IH, Permutation_swap.
Qed.

Lemma sort_SliceStable_perm l : sort_SliceStable less l ≡ₚ l.
Proof.
  induction l as [|x l IH]; [done|].
  unfold sort_SliceStable in *. simpl. by rewrite insert_by_perm, IH.
Qed.

Lemma insert_by_sorted x l :
  StronglySorted (λ a b, less b a = false) l →
  StronglySorted (λ a b, less b a = false) (insert_by less x l).
Proof.
  induction 1 as [|y l Hl IH Hy]; simpl.
  - repeat constructor.
  - destruct (less y x) eqn:Hyx.
    + constructor; [done|].
      rewrite insert_by_perm. constructor; [by apply less_asym|done].
    + constructor; [by constructor|].
      constructor; [done|]. eapply Forall_impl; [done|]. simpl.
      intros z Hzy. by eapply less_neg_trans.
Qed.

Lemma sort_SliceStable_sorted l :
  StronglySorted (λ a b, less b a = false) (sort_SliceStable less l).
Proof.
  induction l as [|x l IH]; [constructor|].
  unfold sort_SliceStable in *. simpl. by apply insert_by_sorted.
Qed.
End sort_by_less.

Section sort_by_key.
Context {A : Type} (key : A → Z).

Let less (a b : A) : bool := bool_decide (key a < key b).

Lemma sort_by_key_sorted l :
  StronglySorted (λ a b, key a ≤ key b) (sort_SliceStable less l).
Proof.
  assert (∀ a b, less b a = false ↔ key a ≤ key b) as Hle.
  { intros a b. unfold less. rewrite bool_decide_eq_false. lia. }
  assert (StronglySorted (λ a b, less b a = false) (sort_SliceStable less l))
    as Hs.
  { apply sort_SliceStable_sorted.
    - intros a b. unfold less. rewrite bool_decide_eq_true, bool_decide_eq_false.
      lia.
    - intros a b c. rewrite !Hle. lia. }
  induction Hs as [|x l' Hl IH Hx]; constructor; [done|].
  eapply Forall_impl; [done|]. intros y. by rewrite Hle.
Qed.

(** Stability: requests with the same key keep their order. *)
Lemma insert_by_filter_key x l t :
  filter (λ a, key a = t) (insert_by less x l) =
  filter (λ a, key a = t) (x :: l).
Proof.
  induction l as [|y l IH]; simpl; [done|].
  unfold less at 1. case_bool_decide as Hlt; [|done].
  rewrite filter_cons, IH, !filter_cons.
  repeat case_decide; try done; lia.
Qed.

Lemma sort_by_key_stable l t :
  filter (λ a, key a = t) (sort_SliceStable less l) = filter (λ a, key a = t) l.
Proof.
  induction l as [|x l IH]; [done|].
  unfold sort_SliceStable in *. simpl.
  rewrite insert_by_filter_key, !filter_cons, IH. done.
Qed.
End sort_by_key.

(** *** The scan of the map *)

(** The map the scan leaves: the enumerated entries that are stale dropped. *)
Definition drop_stale (now : Z) (cur : gmap string timedTxRequest)
    (it : list (string * timedTxRequest)) : gmap string timedTxRequest :=
  foldl (λ c kp, if stale now kp.2 then delete kp.1 c else c) cur it.

Section pop_facts.
Context `{!MapRange string timedTxRequest}.

Lemma ping_older_5_1 now p :
  ping_older now deleteGapMinutes p = true →
  ping_older now selectGapMinutes p = true.
Proof.
  unfold ping_older, deleteGapMinutes, selectGapMinutes, nanosPerMinute.
  rewrite !bool_decide_eq_true. lia.
Qed.

Lemma no_receivers_has p :
  bool_decide (length (Receivers (txRequest p)) ≤ 0)%nat = negb (has_receivers p).
Proof.
  unfold has_receivers. case_bool_decide.
  - rewrite bool_decide_eq_false_2; [done|lia].
  - rewrite bool_decide_eq_true_2; [done|lia].
Qed.

Lemma pop_scan_spec now it cur acc :
  NoDup it.*1 →
  (∀ k p, (k, p) ∈ it → cur !! k = Some p ∧ Id (txRequest p) = k) →
  pop_scan now it cur acc =
  (drop_stale now cur it, acc ++ filter (λ p, eligible now p) it.*2).
Proof.
  revert cur acc. induction it as [|[k p] it IH]; intros cur acc Hnd Hin.
  { simpl. by rewrite app_nil_r. }
  apply NoDup_cons in Hnd as [Hk Hnd].
  destruct (Hin k p) as [Hcur Hid]; [left|].
  assert (∀ k' p', (k', p') ∈ it → cur !! k' = Some p' ∧ Id (txRequest p') = k')
    as Hin' by (intros k' p' ?; apply Hin; by right).
  assert (∀ k' p', (k', p') ∈ it →
            delete k cur !! k' = Some p' ∧ Id (txRequest p') = k') as Hdel.
  { intros k' p' Hkp. destruct (Hin' _ _ Hkp) as [? ?].
    rewrite lookup_delete_ne; [done|]. intros ->. apply Hk.
    apply list_elem_of_fmap. by exists (k', p'). }
  pose proof (eq_refl : stale now p =
    has_receivers p && ping_older now deleteGapMinutes p) as Hst.
  pose proof (eq_refl : eligible now p =
    has_receivers p && negb (ping_older now selectGapMinutes p)) as Hel.
  change (drop_stale now cur ((k, p) :: it))
    with (drop_stale now (if stale now p then delete k cur else cur) it).
  rewrite fmap_cons. simpl. rewrite Hcur, no_receivers_has.
  rewrite !minutes_gt_Since by (unfold selectGapMinutes, deleteGapMinutes; lia).
  destruct (has_receivers p); simpl in *.
  - destruct (ping_older now selectGapMinutes p) eqn:H1; simpl in *.
    + rewrite filter_cons_False by (cbv beta; rewrite Hel; exact id).
      destruct (ping_older now deleteGapMinutes p) eqn:H5; rewrite Hst.
      * rewrite Hid. by apply IH.
      * by apply IH.
    + rewrite filter_cons_True by (cbv beta; rewrite Hel; exact I).
      destruct (ping_older now deleteGapMinutes p) eqn:H5.
      { apply ping_older_5_1 in H5. congruence. }
      rewrite Hst, IH by done. by rewrite <-app_assoc.
  - rewrite filter_cons_False by (cbv beta; rewrite Hel; exact id).
    rewrite Hst. by apply IH.
Qed.

Lemma drop_stale_lookup now it cur k :
  drop_stale now cur it !! k =
  if existsb (λ kp, bool_decide (kp.1 = k) && stale now kp.2) it then None
  else cur !! k.
Proof.
  revert cur. induction it as [|[k0 p0] it IH]; intros cur; [done|].
  unfold drop_stale in *. simpl. rewrite IH.
  destruct (existsb _ it); [by rewrite orb_true_r|]. rewrite orb_false_r.
  destruct (stale now p0); [|by rewrite andb_false_r].
  rewrite andb_true_r. case_bool_decide as Hk.
  - subst. by rewrite lookup_delete_eq.
  - by rewrite lookup_delete_ne.
Qed.

(** What the scan of [pop] does to the whole queue. *)
Lemma pop_scan_range now m :
  wf_queue m →
  pop_scan now (range m) m [] =
  (drop_stale now m (range m), filter (λ p, eligible now p) (range m).*2).
Proof.
  intros Hwf. rewrite pop_scan_spec; [done|apply NoDup_fst_range|].
  intros k p Hin%elem_of_range. split; [done|by apply Hwf].
Qed.

Lemma drop_stale_range_lookup now m k :
  drop_stale now m (range m) !! k =
  match m !! k with
  | Some p => if stale now p then None else Some p
  | None => None
  end.
Proof.
  rewrite drop_stale_lookup.
  destruct (existsb _ _) eqn:Hex.
  - apply existsb_exists in Hex as ([k' p] & Hin & Hb).
    apply andb_true_iff in Hb as [Hk Hst]. apply bool_decide_eq_true in Hk.
    simpl in *. subst k'. apply list_elem_of_In, elem_of_range in Hin.
    by rewrite Hin, Hst.
  - destruct (m !! k) as [p|] eqn:Hk; [|done].
    destruct (stale now p) eqn:Hst; [|done].
    assert (existsb (λ kp, bool_decide (kp.1 = k) && stale now kp.2) (range m)
            = true) as Hex'; [|congruence].
    apply existsb_exists. exists (k, p). split.
    + by apply list_elem_of_In, elem_of_range.
    + simpl. by rewrite bool_decide_eq_true_2, Hst.
Qed.

Lemma delete_taken_lookup (taken : list timedTxRequest)
    (cur : gmap string timedTxRequest) k :
  foldl (λ acc p, delete (Id (txRequest p)) acc) cur taken !! k =
  if bool_decide (k ∈ (λ p, Id (txRequest p)) <$> taken) then None
  else cur !! k.
Proof.
  revert cur. induction taken as [|p taken IH]; intros cur; simpl.
  - done.
  - rewrite IH. case_bool_decide as Hin.
    + rewrite bool_decide_eq_true_2; [done|]. by right.
    + case_bool_decide as Hin'.
      * apply elem_of_cons in Hin' as [->|?]; [|done].
        by rewrite lookup_delete_eq.
      * rewrite lookup_delete_ne; [done|]. intros <-. apply Hin'. left.
Qed.
End pop_facts.

(** *** What pop selects and what it leaves *)

Section pop_spec.
Context `{!MapRange string timedTxRequest}.

Lemma pop_taken_spec now num m :
  wf_queue m →
  pop_taken now num m =
  let requestsByTime :=
    sort_SliceStable born_before (filter (λ p, eligible now p) (range m).*2) in
  let n := Z.of_nat (length requestsByTime) in
  take (Z.to_nat (if bool_decide (num < 0) || bool_decide (n < num) then n else num))
       requestsByTime.
Proof. intros Hwf. unfold pop_taken. by rewrite pop_scan_range. Qed.

Lemma pop_taken_elem now num m p :
  wf_queue m → p ∈ pop_taken now num m →
  m !! Id (txRequest p) = Some p ∧ eligible now p = true.
Proof.
  intros Hwf. rewrite pop_taken_spec by done. cbv zeta.
  intros Hin%subseteq_take.
  rewrite (sort_SliceStable_perm born_before) in Hin.
  apply list_elem_of_filter in Hin as [Hel Hin].
  apply elem_of_range_snd in Hin as [k Hk].
  rewrite (Hwf _ _ Hk). split; [done|]. by apply Is_true_true.
Qed.

Lemma pop_lookup now num m k :
  wf_queue m →
  (pop now num m).2 !! k =
  match m !! k with
  | Some p =>
    if stale now p || bool_decide (p ∈ pop_taken now num m) then None
    else Some p
  | None => None
  end.
Proof.
  intros Hwf. unfold pop. simpl.
  rewrite delete_taken_lookup, pop_scan_range by done. simpl.
  rewrite drop_stale_range_lookup.
  destruct (m !! k) as [p|] eqn:Hk.
  - assert (k ∈ (λ p, Id (txRequest p)) <$> pop_taken now num m
            ↔ p ∈ pop_taken now num m) as Hiff.
    { rewrite list_elem_of_fmap. split.
      - intros (p' & -> & Hin).
        destruct (pop_taken_elem _ _ _ _ Hwf Hin) as [Hp' _]. congruence.
      - intros Hin. exists p. split; [|done]. symmetry. by apply Hwf. }
    rewrite (bool_decide_ext _ _ Hiff).
    destruct (bool_decide (p ∈ pop_taken now num m)); [by rewrite orb_true_r|].
    by rewrite orb_false_r.
  - by destruct (bool_decide _).
Qed.

Lemma len_delete_no_receivers m k r :
  m !! k = Some r → has_receivers r = false → len (delete k m) = len m.
Proof.
  intros Hk Hr. unfold len. f_equal.
  rewrite (range_perm m), (range_perm (delete k m)).
  rewrite <-(map_to_list_delete m k r Hk), filter_cons_False; [done|].
  simpl. unfold has_receivers in Hr. apply bool_decide_eq_false in Hr. done.
Qed.
End pop_spec.

(** *** The operations of the queue as a whole *)

Inductive queue_op :=
  | OpPush (now : Z) (request : TxRequest) (bis : list BoardingInput)
           (recovered : list Vtxo) (musig2 : option Musig2)
  | OpPushWithNotes (now : Z) (request : TxRequest) (ns : list Note)
  | OpPop (now num : Z)
  | OpUpdate (request : TxRequest) (musig2 : option Musig2)
  | OpUpdatePing (now : Z) (id : string)
  | OpDelete (ids : list string)
  | OpDeleteAll.

(** The queue an operation leaves. *)
Definition run_op `{!MapRange string timedTxRequest} (op : queue_op)
    (m : gmap string timedTxRequest) : gmap string timedTxRequest :=
  match op with
  | OpPush now request bis recovered musig2 =>
    (push now request bis recovered musig2 m).2
  | OpPushWithNotes now request ns => (pushWithNotes now request ns m).2
  | OpPop now num => (pop now num m).2
  | OpUpdate request musig2 => (update request musig2 m).2
  | OpUpdatePing now id => (updatePingTimestamp now id m).2
  | OpDelete ids => delete_ids ids m
  | OpDeleteAll => deleteAll m
  end.

Definition run_ops `{!MapRange string timedTxRequest} (ops : list queue_op)
    (m : gmap string timedTxRequest) : gmap string timedTxRequest :=
  foldl (λ q op, run_op op q) m ops.

Section queue_ops.
Context `{!MapRange string timedTxRequest}.

Lemma push_cases now request bis recovered musig2 m :
  (∃ e, push now request bis recovered musig2 m = (Some e, m))
  ∨ (m !! Id request = None
     ∧ push now request bis recovered musig2 m =
       (None, <[Id request := mkTimed request bis [] now now musig2 recovered]> m)).
Proof.
  unfold push. destruct (m !! Id request); [left; eauto|].
  destruct (first_clash _ _ (Inputs request) m) as [[]|]; [left; eauto|].
  destruct (first_clash _ boardingInputs bis m) as [[]|]; [left; eauto|].
  destruct (first_clash _ recoveredVtxos recovered m) as [[]|]; [left; eauto|].
  by right.
Qed.

Lemma pushWithNotes_cases now request ns m :
  (∃ e, pushWithNotes now request ns m = (Some e, m))
  ∨ (m !! Id request = None
     ∧ pushWithNotes now request ns m =
       (None, <[Id request := mkTimed request [] ns now 0 None []]> m)).
Proof.
  unfold pushWithNotes. destruct (m !! Id request); [left; eauto|].
  destruct (first_clash _ notes ns m) as [[]|]; [left; eauto|]. by right.
Qed.

Lemma update_cases request musig2 m :
  (∃ e, update request musig2 m = (Some e, m))
  ∨ (∃ r, m !! Id request = Some r
       ∧ update request musig2 m =
         (None,
          <[Id request :=
              mkTimed request (boardingInputs r) (notes r) (timestamp r)
                (pingTimestamp r)
                (match musig2 with Some d => Some d | None => musig2Data r end)
                (recoveredVtxos r)]> m)).
Proof.
  unfold update. destruct (m !! Id request) as [r|]; [|left; eauto].
  case_bool_decide; [left; eauto|]. right. by exists r.
Qed.

Lemma delete_ids_lookup ids (m : gmap string timedTxRequest) k :
  delete_ids ids m !! k = if bool_decide (k ∈ ids) then None else m !! k.
Proof.
  revert m. unfold delete_ids. induction ids as [|id ids IH]; intros m; simpl.
  - done.
  - rewrite IH. case_bool_decide as Hin.
    + rewrite bool_decide_eq_true_2; [done|]. by right.
    + case_bool_decide as Hin'.
      * apply elem_of_cons in Hin' as [->|?]; [|done]. by rewrite lookup_delete_eq.
      * rewrite lookup_delete_ne; [done|]. intros <-. apply Hin'. left.
Qed.

Lemma wf_queue_run_op op m : wf_queue m → wf_queue (run_op op m).
Proof.
  intros Hwf. destruct op as [now rq bis rc mu|now rq ns|now num|rq mu|now id|ids|];
    unfold run_op.
  - destruct (push_cases now rq bis rc mu m) as [[e ->]|[_ ->]]; [done|].
    by apply (wf_queue_insert m (mkTimed rq bis [] now now mu rc)).
  - destruct (pushWithNotes_cases now rq ns m) as [[e ->]|[_ ->]]; [done|].
    by apply (wf_queue_insert m (mkTimed rq [] ns now 0 None [])).
  - intros k r. rewrite pop_lookup by done.
    destruct (m !! k) as [p|] eqn:Hk; [|done].
    destruct (_ || _); [done|]. intros [= <-]. by apply Hwf.
  - destruct (update_cases rq mu m) as [[e ->]|(r & _ & ->)]; [done|].
    simpl. by apply (wf_queue_insert m (mkTimed rq _ _ _ _ _ _)).
  - unfold updatePingTimestamp. destruct (m !! id) as [r|] eqn:Hid; [|done].
    simpl. intros k r'. rewrite lookup_insert. case_decide as Hk.
    + intros [= <-]. subst. simpl. by apply Hwf.
    + apply Hwf.
  - intros k r. rewrite delete_ids_lookup. case_bool_decide; [done|]. apply Hwf.
  - apply wf_queue_empty.
Qed.

(** Every queue built from the empty one by the operations is well formed. *)
Lemma wf_queue_run_ops ops m : wf_queue m → wf_queue (run_ops ops m).
Proof.
  revert m. unfold run_ops. induction ops as [|op ops IH]; intros m Hwf; [done|].
  simpl. by apply IH, wf_queue_run_op.
Qed.
End queue_ops.

(** *** Requests without receivers *)

Section no_receivers.
Context `{!MapRange string timedTxRequest}.

Lemma no_receivers_not_has r :
  Receivers (txRequest r) = [] → has_receivers r = false.
Proof.
  intros Hr. unfold has_receivers. by rewrite Hr.
Qed.

Lemma no_receivers_not_taken now num m r :
  wf_queue m → has_receivers r = false → r ∉ pop_taken now num m.
Proof.
  intros Hwf Hr Hin. destruct (pop_taken_elem _ _ _ _ Hwf Hin) as [_ Hel].
  unfold eligible in Hel. by rewrite Hr in Hel.
Qed.

(** C10.  In a well-formed queue a request whose receiver set is empty is
    invisible to [pop] and to [len]: [pop] does not return it and does not
    delete it, however old its last ping is, and [len] is the same with and
    without it.  Whatever operation runs next, the request is still in the
    queue without receivers afterwards, unless the operation is a delete that
    names its id, a delete of everything, or an update of this request that
    gives it receivers. *)
Theorem no_receivers_invisible (now num : Z) (m : gmap string timedTxRequest)
    (k : string) (r : timedTxRequest) :
  wf_queue m → m !! k = Some r → Receivers (txRequest r) = [] →
  (r ∉ pop_taken now num m)
  ∧ (txRequest r ∉ poppedRequests (pop now num m).1)
  ∧ (pop now num m).2 !! k = Some r
  ∧ len (delete k m) = len m
  ∧ ∀ op,
      (∃ r', run_op op m !! k = Some r' ∧ Receivers (txRequest r') = [])
      ∨ (∃ ids, op = OpDelete ids ∧ k ∈ ids)
      ∨ op = OpDeleteAll
      ∨ (∃ request musig2, op = OpUpdate request musig2 ∧ Id request = k
                           ∧ Receivers request ≠ []).
Proof.
  intros Hwf Hk Hr. pose proof (no_receivers_not_has r Hr) as Hhas.
  assert (∀ now num, (pop now num m).2 !! k = Some r) as Hpop.
  { intros now' num'. rewrite pop_lookup, Hk by done. unfold stale.
    rewrite Hhas. simpl. rewrite bool_decide_eq_false_2; [done|].
    by apply no_receivers_not_taken. }
  split; [by apply no_receivers_not_taken|]. split; [|split; [|split]].
  - unfold pop. simpl. intros (p & Heq & Hin)%list_elem_of_fmap.
    destruct (pop_taken_elem _ _ _ _ Hwf Hin) as [_ Hel].
    unfold eligible in Hel.
    rewrite no_receivers_not_has in Hel by congruence. done.
  - apply Hpop.
  - by eapply len_delete_no_receivers.
  - intros [now' rq bis rc mu|now' rq ns|now' num'|rq mu|now' id|ids|];
      unfold run_op.
    + left. exists r. split; [|done].
      destruct (push_cases now' rq bis rc mu m) as [[e ->]|[Hnone ->]]; [done|].
      simpl. rewrite lookup_insert_ne; [done|]. congruence.
    + left. exists r. split; [|done].
      destruct (pushWithNotes_cases now' rq ns m) as [[e ->]|[Hnone ->]]; [done|].
      simpl. rewrite lookup_insert_ne; [done|]. congruence.
    + left. exists r. split; [apply Hpop|done].
    + destruct (update_cases rq mu m) as [[e ->]|(r0 & Hr0 & ->)];
        [left; by exists r|]. simpl.
      destruct (decide (Id rq = k)) as [Heq|Hne].
      * destruct (decide (Receivers rq = [])) as [Hnil|Hcons].
        -- left. eexists. rewrite Heq, lookup_insert_eq. split; [done|]. done.
        -- right. right. right. by exists rq, mu.
      * left. exists r. by rewrite lookup_insert_ne.
    + left. destruct (decide (id = k)) as [->|Hne].
      * rewrite (updatePingTimestamp_present _ _ _ _ Hk). simpl.
        exists (with_ping now' r). by rewrite lookup_insert_eq.
      * exists r. split; [|done]. unfold updatePingTimestamp.
        destruct (m !! id); [|done]. simpl. by rewrite lookup_insert_ne.
    + destruct (decide (k ∈ ids)) as [Hin|Hnin].
      * right. left. by exists ids.
      * left. exists r. rewrite delete_ids_lookup.
        by rewrite bool_decide_eq_false_2.
    + right. right. by left.
Qed.
End no_receivers.

(** *** Pop: selection, order, bound and removal *)

Section pop_theorem.
Context `{!MapRange string timedTxRequest}.

Lemma take_pop_bound {A} (num : Z) (l : list A) :
  take (Z.to_nat (if bool_decide (num < 0)
                     || bool_decide (Z.of_nat (length l) < num)
                  then Z.of_nat (length l) else num)) l =
  if bool_decide (num < 0) then l else take (Z.to_nat num) l.
Proof.
  case_bool_decide as Hneg; simpl.
  - rewrite Nat2Z.id. by apply take_ge.
  - case_bool_decide as Hbig.
    + rewrite Nat2Z.id, !take_ge; [done|lia|lia].
    + done.
Qed.

(** C3, as the code has it.  In a well-formed queue [pop(n)] looks only at
    the requests that have at least one receiver.  Of those it leaves out each
    one whose last ping is more than 1 minute old and deletes from the queue
    each one whose last ping is more than 5 minutes old; the others, sorted by
    creation timestamp, are returned: all of them when [n] is negative, the
    first [n] of them (all, if there are fewer) otherwise.  Every returned
    request is removed from the queue, and nothing else changes: a request is
    gone afterwards exactly when it was returned or it has receivers and a
    ping more than 5 minutes old. *)
Theorem pop_fifo (now num : Z) (m : gmap string timedTxRequest) :
  wf_queue m →
  let byTime :=
    sort_SliceStable born_before (filter (λ p, eligible now p) (range m).*2) in
  let taken := pop_taken now num m in
  (poppedRequests (pop now num m).1 = txRequest <$> taken
   ∧ poppedBoardingInputs (pop now num m).1 = taken ≫= boardingInputs
   ∧ poppedNotes (pop now num m).1 = taken ≫= notes
   ∧ poppedMusig2Data (pop now num m).1 = musig2Data <$> taken
   ∧ poppedRecoveredVtxos (pop now num m).1 = taken ≫= recoveredVtxos)
  ∧ byTime ≡ₚ filter (λ p, eligible now p) (map_to_list m).*2
  ∧ StronglySorted (λ a b, timestamp a ≤ timestamp b) byTime
  ∧ taken = (if bool_decide (num < 0) then byTime
             else take (Z.to_nat num) byTime)
  ∧ (∀ p, p ∈ taken →
       m !! Id (txRequest p) = Some p
       ∧ (0 < length (Receivers (txRequest p)))%nat
       ∧ now - pingTimestamp p ≤ 1 * nanosPerMinute)
  ∧ (∀ k, (pop now num m).2 !! k =
       match m !! k with
       | Some p =>
         if has_receivers p && ping_older now deleteGapMinutes p
            || bool_decide (p ∈ taken)
         then None else Some p
       | None => None
       end).
Proof.
  intros Hwf byTime taken. split; [done|]. split; [|split; [|split; [|split]]].
  - unfold byTime. rewrite (sort_SliceStable_perm born_before).
    by rewrite (range_perm m).
  - apply (sort_by_key_sorted timestamp).
  - unfold taken. rewrite pop_taken_spec by done. cbv zeta.
    apply take_pop_bound.
  - intros p Hin. destruct (pop_taken_elem _ _ _ _ Hwf Hin) as [Hp Hel].
    split; [done|]. unfold eligible, has_receivers, ping_older in Hel.
    apply andb_true_iff in Hel as [Hrc Hping].
    apply bool_decide_eq_true in Hrc.
    apply negb_true_iff, bool_decide_eq_false in Hping.
    unfold selectGapMinutes in Hping. split; [done|lia].
  - intros k. by rewrite pop_lookup.
Qed.
End pop_theorem.

(** The queue, the clock reading and the request of the examples below: one
    request without receivers, pinged at time 0, looked at ten minutes on. *)
Definition idle_request : timedTxRequest :=
  mkTimed (mkTxRequest "a" [] []) [] [] 0 0 None [].

Definition idle_queue : gmap string timedTxRequest := {["a" := idle_request]}.

Definition ten_minutes : Z := 10 * nanosPerMinute.

(** C3 as the spec states it fails on a request without receivers: its last
    ping is more than 5 minutes old, yet [pop] leaves it in the queue. *)
Lemma pop_keeps_idle_request :
  minutes_gt (time_Since ten_minutes (pingTimestamp idle_request))
             deleteGapMinutes = true
  ∧ idle_queue !! "a" = Some idle_request
  ∧ (pop ten_minutes (-1) idle_queue).2 !! "a" = Some idle_request.
Proof. vm_compute. done. Qed.

(** ** The request queue: uniqueness of what requests spend *)

(** No element of [l1] has the same [f] as an element of [l2]. *)
Definition disjoint_on {B C} (f : B → C) (l1 l2 : list B) : Prop :=
  ∀ x y, x ∈ l1 → y ∈ l2 → f x ≠ f y.

(** No two requests of the queue share an input vtxo, a boarding input, a
    recovered vtxo or a note id. *)
Definition unique_queue (m : gmap string timedTxRequest) : Prop :=
  ∀ k1 k2 r1 r2, k1 ≠ k2 → m !! k1 = Some r1 → m !! k2 = Some r2 →
    disjoint_on vtxoKey (Inputs (txRequest r1)) (Inputs (txRequest r2))
    ∧ disjoint_on biKey (boardingInputs r1) (boardingInputs r2)
    ∧ disjoint_on vtxoKey (recoveredVtxos r1) (recoveredVtxos r2)
    ∧ disjoint_on ID (notes r1) (notes r2).

(** Some element of [news] has the same [f] as an element that a request of
    the queue holds in [proj]. *)
Definition clashes {B C} (f : B → C) (proj : timedTxRequest → list B)
    (news : list B) (m : gmap string timedTxRequest) : Prop :=
  ∃ x k r y, x ∈ news ∧ m !! k = Some r ∧ y ∈ proj r ∧ f x = f y.

(** The pushes that keep the requests of a queue disjoint: plain pushes, and
    pushes with notes of requests that carry no input vtxo. *)
Definition push_op (op : queue_op) : Prop :=
  match op with
  | OpPush _ _ _ _ _ => True
  | OpPushWithNotes _ request _ => Inputs request = []
  | _ => False
  end.

Lemma same_outpoint_true a b : same_outpoint a b = true ↔ a = b.
Proof.
  unfold same_outpoint. rewrite andb_true_iff, !bool_decide_eq_true.
  destruct a, b; simpl. split; [by intros [-> ->]|by intros [= -> ->]].
Qed.

Lemma same_note_true a b : same_note a b = true ↔ ID a = ID b.
Proof. unfold same_note. by rewrite bool_decide_eq_true. Qed.

Lemma disjoint_on_nil_l {B C} (f : B → C) l : disjoint_on f [] l.
Proof. intros x y Hx. by apply elem_of_nil in Hx. Qed.

Lemma disjoint_on_sym {B C} (f : B → C) l1 l2 :
  disjoint_on f l1 l2 → disjoint_on f l2 l1.
Proof. intros Hd x y Hx Hy Heq. by apply (Hd y x). Qed.

Section push_facts.
Context `{!MapRange string timedTxRequest}.

Lemma elem_of_first_clash_list {A B} (same : A → B → bool)
    (proj : timedTxRequest → list B) (news : list A)
    (m : gmap string timedTxRequest) x r :
  (x, r) ∈ (x ← news; kp ← range m; y ← proj kp.2;
            if same x y then [(x, kp.2)] else [])
  ↔ x ∈ news ∧ ∃ k y, m !! k = Some r ∧ y ∈ proj r ∧ same x y = true.
Proof.
  rewrite list_elem_of_bind. split.
  - intros (x0 & Hin & Hx0). apply list_elem_of_bind in Hin as ([k r0] & Hin & Hkp).
    apply list_elem_of_bind in Hin as (y & Hin & Hy). simpl in *.
    destruct (same x0 y) eqn:Hs; [|by apply elem_of_nil in Hin].
    apply list_elem_of_singleton in Hin as [= -> ->].
    split; [done|]. exists k, y. by rewrite <-elem_of_range.
  - intros (Hx & k & y & Hk & Hy & Hs). exists x. split; [|done].
    apply list_elem_of_bind. exists (k, r). split; [|by apply elem_of_range].
    apply list_elem_of_bind. exists y. split; [|done]. simpl. rewrite Hs. left.
Qed.

Lemma first_clash_Some {A B} (same : A → B → bool)
    (proj : timedTxRequest → list B) news m x r :
  first_clash same proj news m = Some (x, r) →
  x ∈ news ∧ ∃ k y, m !! k = Some r ∧ y ∈ proj r ∧ same x y = true.
Proof.
  unfold first_clash. intros Hhd. apply elem_of_first_clash_list.
  destruct (_ ≫= _) as [|z l]; [done|]. simpl in Hhd. simplify_eq. left.
Qed.

Lemma first_clash_None {A B} (same : A → B → bool)
    (proj : timedTxRequest → list B) news m :
  first_clash same proj news m = None
  ↔ ∀ x k r y, x ∈ news → m !! k = Some r → y ∈ proj r → same x y = false.
Proof.
  unfold first_clash. rewrite head_None. split.
  - intros Hnil x k r y Hx Hk Hy. destruct (same x y) eqn:Hs; [|done].
    assert ((x, r) ∈ @nil (A * timedTxRequest)) as Hin; [|by apply elem_of_nil in Hin].
    rewrite <-Hnil. apply elem_of_first_clash_list. naive_solver.
  - intros Hall. destruct (_ ≫= _) as [|[x r] l] eqn:Hl; [done|]. exfalso.
    assert ((x, r) ∈ (x, r) :: l) as Hin by left. rewrite <-Hl in Hin.
    apply elem_of_first_clash_list in Hin as (Hx & k & y & Hk & Hy & Hs).
    by rewrite (Hall x k r y) in Hs.
Qed.

(** A clash in the sense of the spec is a hit of the loops of the code. *)
Lemma first_clash_clashes {B C} (f : B → C) (same : B → B → bool)
    (proj : timedTxRequest → list B) news m :
  (∀ a b, same a b = true ↔ f a = f b) →
  clashes f proj news m ↔ is_Some (first_clash same proj news m).
Proof.
  intros Hsame. split.
  - intros (x & k & r & y & Hx & Hk & Hy & Heq).
    destruct (first_clash same proj news m) eqn:Hfc; [done|]. exfalso.
    rewrite first_clash_None in Hfc. apply Hsame in Heq.
    by rewrite (Hfc x k r y) in Heq.
  - intros [[x r] Hfc]. apply first_clash_Some in Hfc as (Hx & k & y & Hk & Hy & Hs).
    exists x, k, r, y. by rewrite <-Hsame.
Qed.
End push_facts.

Section push_unique.
Context `{!MapRange string timedTxRequest}.

Let same_vtxo (a b : Vtxo) : bool := same_outpoint (vtxoKey a) (vtxoKey b).
Let same_boarding (a b : BoardingInput) : bool := same_outpoint (biKey a) (biKey b).

Lemma push_rejects now request bis recovered musig2 m :
  is_Some (m !! Id request)
  ∨ clashes vtxoKey (λ r, Inputs (txRequest r)) (Inputs request) m
  ∨ clashes biKey boardingInputs bis m
  ∨ clashes vtxoKey recoveredVtxos recovered m →
  ∃ e, push now request bis recovered musig2 m = (Some e, m).
Proof.
  intros Hbad. destruct (push_cases now request bis recovered musig2 m)
    as [?|[Hfresh Hpush]]; [done|]. exfalso.
  unfold push in Hpush. rewrite Hfresh in Hpush.
  destruct Hbad as [Hid|[Hc|[Hc|Hc]]].
  - rewrite Hfresh in Hid. by destruct Hid.
  - apply (first_clash_clashes vtxoKey same_vtxo) in Hc as [[x r] Hc];
      [|intros; apply same_outpoint_true].
    unfold same_vtxo in Hc. by rewrite Hc in Hpush.
  - apply (first_clash_clashes biKey same_boarding) in Hc as [[x r] Hc];
      [|intros; apply same_outpoint_true].
    unfold same_boarding in Hc. rewrite Hc in Hpush.
    by destruct (first_clash _ _ (Inputs request) m) as [[]|].
  - apply (first_clash_clashes vtxoKey same_vtxo) in Hc as [[x r] Hc];
      [|intros; apply same_outpoint_true].
    unfold same_vtxo in Hc. rewrite Hc in Hpush.
    destruct (first_clash _ _ (Inputs request) m) as [[]|]; [done|].
    by destruct (first_clash _ boardingInputs bis m) as [[]|].
Qed.

Lemma push_accepts now request bis recovered musig2 m :
  m !! Id request = None →
  ¬ clashes vtxoKey (λ r, Inputs (txRequest r)) (Inputs request) m →
  ¬ clashes biKey boardingInputs bis m →
  ¬ clashes vtxoKey recoveredVtxos recovered m →
  push now request bis recovered musig2 m =
  (None, <[Id request := mkTimed request bis [] now now musig2 recovered]> m).
Proof.
  intros Hfresh Hin Hbi Hrc. unfold push. rewrite Hfresh.
  rewrite (first_clash_clashes vtxoKey same_vtxo) in Hin, Hrc
    by (intros; apply same_outpoint_true).
  rewrite (first_clash_clashes biKey same_boarding) in Hbi
    by (intros; apply same_outpoint_true).
  unfold same_vtxo, same_boarding in *.
  destruct (first_clash _ _ (Inputs request) m); [by destruct Hin|].
  destruct (first_clash _ boardingInputs bis m); [by destruct Hbi|].
  destruct (first_clash _ recoveredVtxos recovered m); [by destruct Hrc|].
  done.
Qed.

Lemma pushWithNotes_rejects now request ns m :
  is_Some (m !! Id request) ∨ clashes ID notes ns m →
  ∃ e, pushWithNotes now request ns m = (Some e, m).
Proof.
  intros Hbad. destruct (pushWithNotes_cases now request ns m)
    as [?|[Hfresh Hpush]]; [done|]. exfalso.
  unfold pushWithNotes in Hpush. rewrite Hfresh in Hpush.
  destruct Hbad as [Hid|Hc].
  - rewrite Hfresh in Hid. by destruct Hid.
  - apply (first_clash_clashes ID same_note) in Hc as [[x r] Hc];
      [|intros; apply same_note_true].
    by rewrite Hc in Hpush.
Qed.

Lemma pushWithNotes_accepts now request ns m :
  m !! Id request = None → ¬ clashes ID notes ns m →
  pushWithNotes now request ns m =
  (None, <[Id request := mkTimed request [] ns now 0 None []]> m).
Proof.
  intros Hfresh Hc. unfold pushWithNotes. rewrite Hfresh.
  rewrite (first_clash_clashes ID same_note) in Hc
    by (intros; apply same_note_true).
  destruct (first_clash _ notes ns m); [by destruct Hc|]. done.
Qed.

Lemma unique_queue_empty : unique_queue ∅.
Proof. intros k1 k2 r1 r2 _. by rewrite lookup_empty. Qed.

Lemma unique_queue_insert m k new :
  unique_queue m → m !! k = None →
  (∀ k' r, m !! k' = Some r →
     disjoint_on vtxoKey (Inputs (txRequest new)) (Inputs (txRequest r))
     ∧ disjoint_on biKey (boardingInputs new) (boardingInputs r)
     ∧ disjoint_on vtxoKey (recoveredVtxos new) (recoveredVtxos r)
     ∧ disjoint_on ID (notes new) (notes r)) →
  unique_queue (<[k := new]> m).
Proof.
  intros Hu Hfresh Hnew k1 k2 r1 r2 Hne.
  rewrite !lookup_insert. repeat case_decide; subst; try done.
  - intros [= <-] Hr2. by apply (Hnew k2).
  - intros Hr1 [= <-]. destruct (Hnew k1 r1 Hr1) as (?&?&?&?).
    repeat split; by apply disjoint_on_sym.
  - by apply Hu.
Qed.

Lemma not_clashes_disjoint {B C} (f : B → C) (proj : timedTxRequest → list B)
    news m k r :
  ¬ clashes f proj news m → m !! k = Some r → disjoint_on f news (proj r).
Proof. intros Hc Hk x y Hx Hy Heq. apply Hc. by exists x, k, r, y. Qed.

Lemma unique_queue_push_op op m :
  push_op op → unique_queue m → unique_queue (run_op op m).
Proof.
  destruct op as [now rq bis rc mu|now rq ns| | | | |]; simpl; try done.
  - intros _ Hu.
    destruct (push_cases now rq bis rc mu m) as [[e ->]|[Hfresh Hpush]]; [done|].
    rewrite Hpush. simpl. apply unique_queue_insert; [done..|].
    intros k' r Hr. simpl.
    assert (¬ (is_Some (m !! Id rq)
               ∨ clashes vtxoKey (λ r, Inputs (txRequest r)) (Inputs rq) m
               ∨ clashes biKey boardingInputs bis m
               ∨ clashes vtxoKey recoveredVtxos rc m)) as Hok.
    { intros [e He]%(push_rejects now rq bis rc mu). congruence. }
    repeat split.
    + eapply (not_clashes_disjoint vtxoKey (λ r, Inputs (txRequest r))); [|done].
      naive_solver.
    + eapply (not_clashes_disjoint biKey boardingInputs); [|done]. naive_solver.
    + eapply (not_clashes_disjoint vtxoKey recoveredVtxos); [|done]. naive_solver.
    + apply disjoint_on_nil_l.
  - intros Hnoin Hu.
    destruct (pushWithNotes_cases now rq ns m) as [[e ->]|[Hfresh Hpush]]; [done|].
    rewrite Hpush. simpl. apply unique_queue_insert; [done..|].
    intros k' r Hr. simpl. rewrite Hnoin.
    repeat split; try apply disjoint_on_nil_l.
    eapply (not_clashes_disjoint ID notes); [|done].
    intros Hc. destruct (pushWithNotes_rejects now rq ns m) as [e He]; [by right|].
    congruence.
Qed.

End push_unique.

(** The two requests of the example below spend the same vtxo. *)
Definition shared_vtxo : Vtxo := mkVtxo (mkVtxoKey "tx" 0) 1000.

Definition first_request : TxRequest :=
  mkTxRequest "a" [shared_vtxo] [mkReceiver "alice" 1000].

Definition second_request : TxRequest := mkTxRequest "b" [shared_vtxo] [].

(** C4 on the code: [pushWithNotes] accepts a request that brings an input
    vtxo a queued request already spends, and the queue then holds two
    requests with that input.  The plain [push] of the same request into the
    same queue is rejected as a duplicated input and leaves the queue as it
    was. *)
Lemma pushWithNotes_accepts_used_input :
  run_ops [OpPush 1 first_request [] [] None] ∅
  = {["a" := mkTimed first_request [] [] 1 1 None []]}
  ∧ pushWithNotes 2 second_request []
      (run_ops [OpPush 1 first_request [] [] None] ∅)
    = (None,
       {["a" := mkTimed first_request [] [] 1 1 None [];
         "b" := mkTimed second_request [] [] 2 0 None []]})
  ∧ Inputs first_request = [shared_vtxo]
  ∧ Inputs second_request = [shared_vtxo]
  ∧ push 2 second_request [] [] None
      (run_ops [OpPush 1 first_request [] [] None] ∅)
    = (Some (ErrDuplicatedInput "tx" 0 "a"),
       run_ops [OpPush 1 first_request [] [] None] ∅).
Proof. vm_compute. done. Qed.

(** ** The request queue: update and the balance of a request *)

(** The sum of [f] over a list, in the integers. *)
Definition total {A} (f : A → Z) (xs : list A) : Z :=
  foldr (λ x s, f x + s) 0 xs.

(** What a request takes in and what it pays out, in the integers. *)
Definition total_inputs (request : TxRequest) (r : timedTxRequest) : Z :=
  total Amount (Inputs request) + total biAmount (boardingInputs r)
  + total Value (notes r) + total Amount (recoveredVtxos r).

Definition total_outputs (request : TxRequest) : Z :=
  total rcvAmount (Receivers request).

Lemma sum64_total {A} (f : A → Z) xs acc :
  sum64 f xs (acc mod 2 ^ 64) = (acc + total f xs) mod 2 ^ 64.
Proof.
  revert acc. induction xs as [|x xs IH]; intros acc; simpl.
  - by rewrite Z.add_0_r.
  - unfold sum64 in *. simpl. unfold add64 at 2.
    rewrite Zplus_mod_idemp_l, IH. f_equal. lia.
Qed.

Lemma sumOfInputs_total request r :
  sumOfInputs request r = total_inputs request r mod 2 ^ 64.
Proof.
  unfold sumOfInputs, total_inputs.
  change 0 with (0 mod 2 ^ 64) at 1. rewrite !sum64_total. f_equal; lia.
Qed.

Lemma sumOfOutputs_total request :
  sumOfOutputs request = total_outputs request mod 2 ^ 64.
Proof.
  unfold sumOfOutputs, total_outputs.
  change 0 with (0 mod 2 ^ 64) at 1. by rewrite sum64_total.
Qed.

Section update_facts.
Context `{!MapRange string timedTxRequest}.

(** What [update] does: it compares the two sums as [uint64] values, that is
    modulo [2^64]. *)
Lemma update_balance_mod64 request musig2 m :
  match m !! Id request with
  | None => update request musig2 m = (Some (errTxRequestNotFound (Id request)), m)
  | Some r =>
    ((update request musig2 m).1 = None
     ↔ total_inputs request r mod 2 ^ 64 = total_outputs request mod 2 ^ 64)
    ∧ (total_inputs request r mod 2 ^ 64 ≠ total_outputs request mod 2 ^ 64 →
       ∃ e, update request musig2 m = (Some e, m))
    ∧ (total_inputs request r mod 2 ^ 64 = total_outputs request mod 2 ^ 64 →
       ∃ r', update request musig2 m = (None, <[Id request := r']> m)
             ∧ txRequest r' = request)
  end.
Proof.
  unfold update. destruct (m !! Id request) as [r|]; [|done].
  rewrite sumOfInputs_total, sumOfOutputs_total.
  case_bool_decide as Hne; simpl.
  - split; [split; [done|by intros ?]|]. split; [eauto|done].
  - split; [done|]. split; [done|]. eauto.
Qed.

(** Where neither sum reaches [2^64] the comparison is the one of the spec. *)
Lemma update_balance_in_range request musig2 m r :
  m !! Id request = Some r →
  0 ≤ total_inputs request r < 2 ^ 64 →
  0 ≤ total_outputs request < 2 ^ 64 →
  (update request musig2 m).1 = None
  ↔ total_inputs request r = total_outputs request.
Proof.
  intros Hr Hin Hout. pose proof (update_balance_mod64 request musig2 m) as H.
  rewrite Hr in H. destruct H as [-> _].
  by rewrite !Z.mod_small.
Qed.
End update_facts.

(** The request of the example below: it spends 1000 and pays out
    [2^64 + 1000], in two receivers of [2^63 + 500] each. *)
Definition overdrawn_request : TxRequest :=
  mkTxRequest "a" [mkVtxo (mkVtxoKey "tx" 0) 1000]
    [mkReceiver "alice" (2 ^ 63 + 500); mkReceiver "bob" (2 ^ 63 + 500)].

(** C5 on the code: [update] accepts a request that pays out more than it
    takes in, because the sum of the receivers wraps around [2^64]. *)
Lemma update_accepts_overdrawn_request :
  idle_queue !! Id overdrawn_request = Some idle_request
  ∧ total_inputs overdrawn_request idle_request = 1000
  ∧ total_outputs overdrawn_request = 2 ^ 64 + 1000
  ∧ sumOfOutputs overdrawn_request = 1000
  ∧ (update overdrawn_request None idle_queue).1 = None
  ∧ txRequest <$> (update overdrawn_request None idle_queue).2 !! "a"
    = Some overdrawn_request.
Proof. vm_compute. done. Qed.

(** ** The forfeit collector: binding vtxos to connectors *)

(** *** The order on strings and a sort for it *)

Lemma ascii_compare_refl a : Ascii.compare a a = Eq.
Proof. unfold Ascii.compare. apply N.compare_refl. Qed.

Lemma ascii_compare_lt_trans a b c :
  Ascii.compare a b = Lt → Ascii.compare b c = Lt → Ascii.compare a c = Lt.
Proof. unfold Ascii.compare. rewrite !N.compare_lt_iff. lia. Qed.

Lemma string_compare_lt_trans a b c :
  String.compare a b = Lt → String.compare b c = Lt → String.compare a c = Lt.
Proof.
  revert b c. induction a as [|x a IH]; intros [|y b] [|z c]; simpl; try done.
  destruct (Ascii.compare x y) eqn:Hxy; try done;
    destruct (Ascii.compare y z) eqn:Hyz; try done; intros Hab Hbc.
  - apply Ascii.compare_eq_iff in Hxy, Hyz. subst.
    rewrite ascii_compare_refl. eauto.
  - apply Ascii.compare_eq_iff in Hxy. subst. by rewrite Hyz.
  - apply Ascii.compare_eq_iff in Hyz. subst. by rewrite Hxy.
  - by rewrite (ascii_compare_lt_trans x y z).
Qed.

Lemma string_ltb_asym a b : String.ltb a b = true → String.ltb b a = false.
Proof.
  unfold String.ltb. rewrite (String.compare_antisym b a).
  by destruct (String.compare a b).
Qed.

(** [a ≤ b] and [b ≤ c] give [a ≤ c], with [x ≤ y] read as "not [y < x]". *)
Lemma string_ltb_neg_trans a b c :
  String.ltb b a = false → String.ltb c b = false → String.ltb c a = false.
Proof.
  unfold String.ltb. intros Hba Hcb.
  destruct (String.compare c a) eqn:Hca; try done. exfalso.
  destruct (String.compare b a) eqn:Hba'; try done.
  - apply String.compare_eq_iff in Hba'. subst. by rewrite Hca in Hcb.
  - rewrite String.compare_antisym in Hba'.
    destruct (String.compare a b) eqn:Hab; try done.
    by rewrite (string_compare_lt_trans c a b) in Hcb.
Qed.


Lemma StronglySorted_lookup {A} (R : A → A → Prop) l i j a b :
  StronglySorted R l → l !! i = Some a → l !! j = Some b → (i < j)%nat → R a b.
Proof.
  intros Hs. revert i j. induction Hs as [|x l Hl IH Hx]; intros i j Hi Hj Hlt.
  - by rewrite lookup_nil in Hi.
  - destruct j as [|j]; [lia|]. simpl in Hj. destruct i as [|i]; simpl in Hi.
    + simplify_eq. rewrite Forall_forall in Hx. eapply Hx, list_elem_of_lookup_2.
      done.
    + eapply (IH i j); [done..|lia].
Qed.

(** One [sort.Slice]: the insertion sort. *)
#[global] Program Instance insertion_sort_Slice : SortSlice :=
  {| sort_Slice := sort_SliceStable vtxo_less |}.
Next Obligation. intros l. apply sort_SliceStable_perm. Qed.
Next Obligation.
  intros l i j a b Hi Hj Hlt.
  eapply (StronglySorted_lookup (λ a b, vtxo_less b a = false)); [|done..].
  apply sort_SliceStable_sorted; unfold vtxo_less.
  - intros ??. apply string_ltb_asym.
  - intros ???. apply string_ltb_neg_trans.
Qed.

(** *** The connectors index *)



Section init_facts.
Context `{!TxTreeOps} `{!SortSlice} `{!MapRange VtxoKey string}.
Context {SweepInput : Type} `{!TxBuilder SweepInput}.



Lemma init_forfeitTxs_lookup (vs : list Vtxo) (txs : gmap VtxoKey string) k :
  foldl (λ acc v, <[vtxoKey v := ""]> acc) txs vs !! k =
  if bool_decide (k ∈ vtxoKey <$> vs) then Some "" else txs !! k.
Proof.
  revert txs. induction vs as [|v vs IH]; intros txs; simpl; [done|].
  rewrite IH. case_bool_decide as Hin.
  - rewrite bool_decide_eq_true_2; [done|]. by right.
  - case_bool_decide as Hin'.
    + apply elem_of_cons in Hin' as [->|?]; [|done]. by rewrite lookup_insert_eq.
    + rewrite lookup_insert_ne; [done|]. intros <-. apply Hin'. left.
Qed.




End init_facts.

(** Modelled from the spec: [tree.TxTree.Leaves] and [tree.TxTree.Children]
    are in package [tree], which is not among the sources.  The instance
    below serves the examples; the theorems hold for every instance.  The
    leaves are the nodes marked as leaves, in the order of their txids (the
    spec: "connector leaves sorted by leaf txid"), and the children of a
    transaction are the nodes that name it as their parent. *)
#[global] Instance example_tree_ops : TxTreeOps := {|
  Leaves t :=
    sort_SliceStable (λ a b, String.ltb (nodeTxid a) (nodeTxid b))
      (filter (λ n, Leaf n = true) (concat t));
  Children t txid := filter (λ n, ParentTxid n = txid) (concat t)
|}.

(** The connector tree and the batch of the examples below: two leaves, with
    txids ["b"] and ["a"], and one request with two inputs. *)
Definition example_connectors : TxTree :=
  [[mkNode "root" "" "round" false];
   [mkNode "b" "" "root" true; mkNode "a" "" "root" true]].

Definition example_batch : list TxRequest :=
  [mkTxRequest "r" [mkVtxo (mkVtxoKey "t2" 0) 700; mkVtxo (mkVtxoKey "t1" 0) 300]
               [mkReceiver "alice" 1000]].




(** ** The sweeper's traversal *)

Section sweeper_spec.
Context `{!TxTreeOps} `{!WalletService}.
Context {SweepInput : Type} `{!TxBuilder SweepInput}.
Context (schedulerUnit : TimeUnit) (vtxoTree : TxTree).

(** The block height or block time at which the wallet reports [txid]
    confirmed, [None] if it reports it unconfirmed or fails. *)
Definition confirmed_at (txid : string) : option Z :=
  match IsTransactionConfirmed txid with
  | inr (true, height, blocktime) => Some (cached_time schedulerUnit height blocktime)
  | _ => None
  end.

(** The nodes a confirmed node hands to the next iteration. *)
Definition next_of (node : Node) : list Node :=
  match IsTransactionConfirmed (nodeTxid node) with
  | inr (true, _, _) =>
    if Leaf node then [] else Children vtxoTree (nodeTxid node)
  | _ => []
  end.

(** The nodes inspected in iteration [k] of the outer loop, starting from
    [nodes]. *)
Fixpoint level_from (nodes : list Node) (k : nat) : list Node :=
  match k with
  | O => nodes
  | S k' => level_from (nodes ≫= next_of) k'
  end.

(** All nodes inspected in the first [d] iterations, in order. *)
Fixpoint inspected_from (nodes : list Node) (d : nat) : list Node :=
  match d with
  | O => []
  | S d' => nodes ++ inspected_from (nodes ≫= next_of) d'
  end.

(** The sweep input an unconfirmed node contributes, with its expiration
    time: the time of its confirmed parent plus the relative timelock. *)
Definition sweep_task (node : Node) : option (Z * SweepInput) :=
  match IsTransactionConfirmed (nodeTxid node) with
  | inr (false, _, _) =>
    match confirmed_at (ParentTxid node), GetSweepInput node with
    | Some t, inr (vtxoTreeExpiry, sweepInput) =>
      Some (addi64 t (ltValue vtxoTreeExpiry), sweepInput)
    | _, _ => None
    end
  | _ => None
  end.

(** The inspection of a node raises no error. *)
Definition node_ok (node : Node) : Prop :=
  match IsTransactionConfirmed (nodeTxid node) with
  | inl _ => False
  | inr (true, _, _) => True
  | inr (false, _, _) => is_Some (sweep_task node)
  end.

(** Filing a sweep input under its expiration time. *)
Definition add_task (outputs : gmap Z (list SweepInput)) (c : Z * SweepInput)
    : gmap Z (list SweepInput) :=
  <[c.1 := default [] (outputs !! c.1) ++ [c.2]]> outputs.

(** Everything in the cache is what the wallet reports. *)
Definition cache_ok (cache : gmap string Z) : Prop :=
  ∀ txid t, cache !! txid = Some t → confirmed_at txid = Some t.

Lemma check_node_spec node st :
  cache_ok (blocktimeCache st) →
  match check_node schedulerUnit vtxoTree node st with
  | inr st' =>
    node_ok node
    ∧ cache_ok (blocktimeCache st')
    ∧ newNodesToCheck st' = newNodesToCheck st ++ next_of node
    ∧ sweepableOutputs st' =
      match sweep_task node with
      | Some c => add_task (sweepableOutputs st) c
      | None => sweepableOutputs st
      end
  | inl _ => ¬ node_ok node
  end.
Proof.
  intros Hcache. unfold check_node, node_ok, sweep_task, next_of.
  destruct (IsTransactionConfirmed (nodeTxid node)) as [err|[[[] height] blocktime]] eqn:Hnode;
    [tauto| |].
  - simpl. split; [done|]. split; [|split; [|done]].
    + intros txid t. rewrite lookup_insert. case_decide as Heq; [|apply Hcache].
      intros [= <-]. subst txid. unfold confirmed_at. by rewrite Hnode.
    + destruct (Leaf node); [by rewrite app_nil_r|done].
  - destruct (blocktimeCache st !! ParentTxid node) as [t|] eqn:Hparent.
    + rewrite (Hcache _ _ Hparent).
      destruct (GetSweepInput node) as [err|[expiry input]];
        [by intros [? ?]|].
      simpl. rewrite Hparent. simpl.
      split; [done|]. split; [done|]. split; [by rewrite app_nil_r|done].
    + unfold confirmed_at.
      destruct (IsTransactionConfirmed (ParentTxid node))
        as [err|[[[] h] b]] eqn:Hp; [by intros [? ?]| |by intros [? ?]].
      destruct (GetSweepInput node) as [err|[expiry input]];
        [by intros [? ?]|].
      simpl. rewrite lookup_insert_eq. simpl.
      split; [done|]. split; [|split; [by rewrite app_nil_r|done]].
      intros txid t. rewrite lookup_insert. case_decide as Heq; [|apply Hcache].
      intros [= <-]. subst txid. unfold confirmed_at. by rewrite Hp.
Qed.

Definition add_tasks (outputs : gmap Z (list SweepInput))
    (cs : list (Z * SweepInput)) : gmap Z (list SweepInput) :=
  foldl add_task outputs cs.

Lemma check_nodes_spec nodes st :
  cache_ok (blocktimeCache st) →
  match check_nodes schedulerUnit vtxoTree nodes st with
  | inr st' =>
    Forall node_ok nodes
    ∧ cache_ok (blocktimeCache st')
    ∧ newNodesToCheck st' = newNodesToCheck st ++ (nodes ≫= next_of)
    ∧ sweepableOutputs st' =
      add_tasks (sweepableOutputs st) (omap sweep_task nodes)
  | inl _ => ¬ Forall node_ok nodes
  end.
Proof.
  revert st. induction nodes as [|node nodes IH]; intros st Hcache; simpl.
  { by rewrite app_nil_r. }
  pose proof (check_node_spec node st Hcache) as Hnode.
  destruct (check_node schedulerUnit vtxoTree node st) as [err|st1].
  { intros Hall. by apply Forall_cons in Hall as [? _]. }
  destruct Hnode as (Hok & Hcache1 & Hnew1 & Hout1).
  specialize (IH st1 Hcache1).
  destruct (check_nodes schedulerUnit vtxoTree nodes st1) as [err|st2].
  { intros Hall. by apply Forall_cons in Hall as [_ ?]. }
  destruct IH as (Hall & Hcache2 & Hnew2 & Hout2).
  split; [by constructor|]. split; [done|]. split.
  - by rewrite Hnew2, Hnew1, <-app_assoc.
  - rewrite Hout2, Hout1. unfold add_tasks. by destruct (sweep_task node).
Qed.

Lemma level_from_nil k : level_from [] k = [].
Proof. by induction k. Qed.

Lemma level_from_S nodes k :
  level_from nodes (S k) = level_from nodes k ≫= next_of.
Proof. revert nodes. induction k as [|k IH]; intros nodes; [done|]. apply IH. Qed.

Lemma elem_of_inspected_from nodes d n :
  n ∈ inspected_from nodes d ↔ ∃ k, (k < d)%nat ∧ n ∈ level_from nodes k.
Proof.
  revert nodes. induction d as [|d IH]; intros nodes; simpl.
  - split; [by intros ?%elem_of_nil|]. intros (k & ? & _). lia.
  - rewrite elem_of_app, IH. split.
    + intros [Hin|(k & Hk & Hin)].
      * exists 0%nat. split; [lia|done].
      * exists (S k). split; [lia|done].
    + intros ([|k] & Hk & Hin); [by left|]. right. exists k. split; [lia|done].
Qed.

Lemma level_from_empty_later nodes d k :
  level_from nodes d = [] → (d ≤ k)%nat → level_from nodes k = [].
Proof.
  revert nodes k. induction d as [|d IH]; intros nodes k Hd Hk; simpl in *.
  - subst. apply level_from_nil.
  - destruct k as [|k]; [lia|]. simpl. apply (IH _ k); [done|lia].
Qed.

(** The outer loop against the levels: what each way out says of them. *)
Lemma sweep_loop_spec fuel nodes outputs cache :
  cache_ok cache →
  match sweep_loop fuel schedulerUnit vtxoTree nodes outputs cache with
  | Returned out =>
    ∃ d, (d ≤ fuel)%nat ∧ level_from nodes d = []
         ∧ Forall node_ok (inspected_from nodes d)
         ∧ out = add_tasks outputs (omap sweep_task (inspected_from nodes d))
  | Failed _ =>
    ∃ k, (k < fuel)%nat ∧ ¬ Forall node_ok (level_from nodes k)
  | OutOfFuel =>
    level_from nodes fuel ≠ [] ∧ Forall node_ok (inspected_from nodes fuel)
  | Panicked => False
  end.
Proof.
  revert nodes outputs cache.
  induction fuel as [|fuel IH]; intros nodes outputs cache Hcache; simpl.
  - destruct nodes as [|n nodes]; simpl.
    + exists 0%nat. split; [lia|]. done.
    + done.
  - destruct nodes as [|n nodes].
    + exists 0%nat. split; [lia|]. done.
    + pose proof (check_nodes_spec (n :: nodes) (mkSweep outputs cache []) Hcache)
        as Hlevel.
      destruct (check_nodes _ _ (n :: nodes) _) as [err|st].
      * exists 0%nat. split; [lia|done].
      * destruct Hlevel as (Hall & Hcache' & Hnew & Hout).
        change (newNodesToCheck st = (n :: nodes) ≫= next_of) in Hnew.
        change (sweepableOutputs st =
                add_tasks outputs (omap sweep_task (n :: nodes))) in Hout.
        specialize (IH (newNodesToCheck st)
          (sweepableOutputs st) (blocktimeCache st) Hcache').
        rewrite Hnew in IH |- *.
        destruct (sweep_loop fuel schedulerUnit vtxoTree
                    ((n :: nodes) ≫= next_of) (sweepableOutputs st)
                    (blocktimeCache st)) as [out|err| |].
        -- destruct IH as (d & Hd & Hempty & Hok & ->).
           exists (S d). split; [lia|]. split; [done|]. split.
           ++ change (inspected_from (n :: nodes) (S d))
                with ((n :: nodes) ++ inspected_from ((n :: nodes) ≫= next_of) d).
              by apply Forall_app_2.
           ++ change (inspected_from (n :: nodes) (S d))
                with ((n :: nodes) ++ inspected_from ((n :: nodes) ≫= next_of) d).
              rewrite omap_app, Hout. unfold add_tasks. by rewrite foldl_app.
        -- destruct IH as (k & Hk & Hbad). exists (S k). split; [lia|done].
        -- done.
        -- destruct IH as [Hne Hok]. split; [done|].
           change (inspected_from (n :: nodes) (S fuel))
             with ((n :: nodes) ++ inspected_from ((n :: nodes) ≫= next_of) fuel).
           by apply Forall_app_2.
Qed.

(** The sweep inputs filed under an expiration time: those of the tasks with
    that time, in the order of the tasks. *)
Lemma add_tasks_lookup outputs cs e :
  add_tasks outputs cs !! e =
  match filter (λ c, c.1 = e) cs with
  | [] => outputs !! e
  | l => Some (default [] (outputs !! e) ++ l.*2)
  end.
Proof.
  revert outputs. unfold add_tasks.
  induction cs as [|[e' input] cs IH]; intros outputs; [done|].
  simpl. rewrite IH, filter_cons. simpl.
  assert (add_task outputs (e', input) !! e =
          if decide (e' = e) then Some (default [] (outputs !! e) ++ [input])
          else outputs !! e) as ->.
  { unfold add_task. simpl. case_decide as He.
    - subst e'. by rewrite lookup_insert_eq.
    - by rewrite lookup_insert_ne. }
  case_decide as He.
  - destruct (filter _ cs) as [|c l]; simpl; [done|].
    by rewrite <-app_assoc.
  - done.
Qed.

Lemma cache_ok_empty : cache_ok ∅.
Proof. intros txid t. by rewrite lookup_empty. Qed.

Lemma node_ok_unconfirmed node height blocktime :
  IsTransactionConfirmed (nodeTxid node) = inr (false, height, blocktime) →
  node_ok node →
  ∃ t expiry input,
    confirmed_at (ParentTxid node) = Some t
    ∧ GetSweepInput node = inr (expiry, input)
    ∧ sweep_task node = Some (addi64 t (ltValue expiry), input).
Proof.
  unfold node_ok, sweep_task. intros ->.
  destruct (confirmed_at (ParentTxid node)) as [t|]; [|by intros [? ?]].
  destruct (GetSweepInput node) as [err|[expiry input]]; [by intros [? ?]|].
  intros _. by exists t, expiry, input.
Qed.

Lemma addi64_in_range t v :
  minInt64 ≤ t + v ≤ maxInt64 → addi64 t v = t + v.
Proof.
  unfold addi64, minInt64, maxInt64. intros Hr.
  rewrite Z.mod_small; lia.
Qed.

(** The wallet reports the transaction of [node] as not confirmed. *)
Definition unconfirmed (node : Node) : bool :=
  match IsTransactionConfirmed (nodeTxid node) with
  | inr (false, _, _) => true
  | _ => false
  end.

(** [c] is the sweep input of [node] under its expiration time: the block
    height, or for the other scheduler unit the block time, at which the
    wallet reports the parent of [node] confirmed, plus the relative timelock
    that [GetSweepInput] returns for [node], added in [int64]. *)
Definition task_of (node : Node) (c : Z * SweepInput) : Prop :=
  ∃ height blocktime expiry input,
    IsTransactionConfirmed (ParentTxid node) = inr (true, height, blocktime)
    ∧ GetSweepInput node = inr (expiry, input)
    ∧ c = (addi64 (match schedulerUnit with
                   | BlockHeight => height
                   | UnixTime => blocktime
                   end) (ltValue expiry), input).

(** The inspection of [node] raises no error: the wallet answers, and if the
    transaction is not confirmed its parent is and the builder gives the
    sweep input. *)
Definition inspection_passes (node : Node) : Prop :=
  match IsTransactionConfirmed (nodeTxid node) with
  | inl _ => False
  | inr (true, _, _) => True
  | inr (false, _, _) =>
    (∃ height blocktime,
       IsTransactionConfirmed (ParentTxid node) = inr (true, height, blocktime))
    ∧ ∃ expiry input, GetSweepInput node = inr (expiry, input)
  end.

Lemma node_ok_passes node : node_ok node ↔ inspection_passes node.
Proof.
  unfold node_ok, inspection_passes, sweep_task, confirmed_at.
  destruct (IsTransactionConfirmed (nodeTxid node)) as [err|[[[] h] b]];
    [done..|].
  destruct (IsTransactionConfirmed (ParentTxid node)) as [err|[[[] hp] bp]];
    destruct (GetSweepInput node) as [err'|[expiry input]]; split;
    try (by intros [? ?]); try (by intros [(? & ? & ?) _]);
    try (by intros [_ (? & ? & ?)]).
  intros _. split; eauto.
Qed.

Lemma node_ok_tasks nodes :
  Forall node_ok nodes →
  Forall2 task_of (filter (λ n, unconfirmed n = true) nodes)
          (omap sweep_task nodes).
Proof.
  induction 1 as [|node nodes Hok Hall IH]; [constructor|].
  rewrite filter_cons.
  change (omap sweep_task (node :: nodes))
    with (match sweep_task node with
          | Some c => c :: omap sweep_task nodes
          | None => omap sweep_task nodes
          end).
  destruct (IsTransactionConfirmed (nodeTxid node))
    as [err|[[[] h] b]] eqn:Hnode.
  - unfold node_ok in Hok. by rewrite Hnode in Hok.
  - assert (unconfirmed node = false) as Hu
      by (unfold unconfirmed; by rewrite Hnode).
    assert (sweep_task node = None) as ->
      by (unfold sweep_task; by rewrite Hnode).
    rewrite decide_False by (by rewrite Hu). exact IH.
  - destruct (node_ok_unconfirmed node h b Hnode Hok)
      as (t & expiry & input & Hparent & Hinput & ->).
    assert (unconfirmed node = true) as Hu
      by (unfold unconfirmed; by rewrite Hnode).
    rewrite decide_True by done. constructor; [|exact IH].
    unfold confirmed_at in Hparent.
    destruct (IsTransactionConfirmed (ParentTxid node))
      as [err|[[[] hp] bp]] eqn:Hp; try done.
    injection Hparent as <-. exists hp, bp, expiry, input.
    unfold cached_time. by destruct schedulerUnit.
Qed.

(** C9, as the code has it.  The traversal starts from the root level and
    inspects, iteration after iteration, the children of the confirmed
    non-leaf nodes of the iteration before; what lies below a node that is not
    confirmed is not inspected.  When it returns, every inspected node whose
    transaction is not confirmed has contributed exactly one sweep input,
    filed under the block height (scheduler unit [BlockHeight]) or the block
    time (otherwise) of its confirmed parent plus the relative timelock
    [GetSweepInput] gives for the node ([int64] addition, the plain sum where
    that fits), and the confirmed nodes have contributed nothing.  It fails
    when an inspected unconfirmed node has a parent that is not confirmed.  It
    does return when the levels run out within the bound on the iterations and
    no inspection raises an error. *)
Theorem sweep_traversal (fuel : nat) :
  let root := default [] (head vtxoTree) in
  (∀ out, findSweepableOutputs fuel schedulerUnit vtxoTree = Returned out →
     ∃ d tasks, (d ≤ fuel)%nat ∧ level_from root d = []
       ∧ Forall inspection_passes (inspected_from root d)
       ∧ Forall2 task_of
           (filter (λ n, unconfirmed n = true) (inspected_from root d)) tasks
       ∧ (∀ e, out !! e =
            match filter (λ c, c.1 = e) tasks with
            | [] => None
            | l => Some l.*2
            end))
  ∧ (∀ k n height blocktime,
       n ∈ level_from root k →
       IsTransactionConfirmed (nodeTxid n) = inr (true, height, blocktime) →
       Leaf n = false →
       Children vtxoTree (nodeTxid n) ⊆ level_from root (S k))
  ∧ (∀ k n height blocktime,
       (k < fuel)%nat → n ∈ level_from root k →
       IsTransactionConfirmed (nodeTxid n) = inr (false, height, blocktime) →
       (∀ h b, IsTransactionConfirmed (ParentTxid n) ≠ inr (true, h, b)) →
       ∃ e, findSweepableOutputs fuel schedulerUnit vtxoTree = Failed e)
  ∧ (∀ d, vtxoTree ≠ [] → (d ≤ fuel)%nat → level_from root d = [] →
       Forall inspection_passes (inspected_from root d) →
       ∃ out, findSweepableOutputs fuel schedulerUnit vtxoTree = Returned out)
  ∧ (∀ t v, minInt64 ≤ t + v ≤ maxInt64 → addi64 t v = t + v).
Proof.
  intros root.
  pose proof (sweep_loop_spec fuel root ∅ ∅ cache_ok_empty) as Hloop.
  assert (vtxoTree ≠ [] →
          findSweepableOutputs fuel schedulerUnit vtxoTree =
          sweep_loop fuel schedulerUnit vtxoTree root ∅ ∅) as Hfind.
  { unfold findSweepableOutputs, root. by destruct vtxoTree. }
  split; [|split; [|split; [|split]]].
  - intros out Hout. destruct (decide (vtxoTree = [])) as [Hnil|Hne].
    { unfold findSweepableOutputs in Hout. by rewrite Hnil in Hout. }
    rewrite (Hfind Hne) in Hout. rewrite Hout in Hloop.
    destruct Hloop as (d & Hd & Hempty & Hok & ->).
    exists d, (omap sweep_task (inspected_from root d)).
    split; [done|]. split; [done|]. split; [|split].
    + eapply Forall_impl; [exact Hok|]. intros n. apply node_ok_passes.
    + by apply node_ok_tasks.
    + intros e. rewrite add_tasks_lookup, lookup_empty. simpl.
      by destruct (filter _ _).
  - intros k n height blocktime Hn Hconf Hleaf child Hchild.
    rewrite level_from_S. apply list_elem_of_bind. exists n. split; [|done].
    unfold next_of. by rewrite Hconf, Hleaf.
  - intros k n height blocktime Hk Hn Hnode Hparent.
    assert (¬ node_ok n) as Hbad.
    { rewrite node_ok_passes. unfold inspection_passes. rewrite Hnode.
      intros [(h & b & Hp) _]. by apply (Hparent h b). }
    destruct (decide (vtxoTree = [])) as [Hnil|Hne].
    { exfalso. unfold root in Hn. rewrite Hnil in Hn. simpl in Hn.
      rewrite level_from_nil in Hn. by apply elem_of_nil in Hn. }
    rewrite (Hfind Hne).
    destruct (sweep_loop fuel schedulerUnit vtxoTree root ∅ ∅) as [out|err| |].
    + exfalso. destruct Hloop as (d & Hd & Hempty & Hok & _).
      destruct (decide (k < d)%nat) as [Hlt|Hge].
      * rewrite Forall_forall in Hok. apply Hbad, Hok.
        apply elem_of_inspected_from. eauto.
      * rewrite (level_from_empty_later root d k) in Hn by (done || lia).
        by apply elem_of_nil in Hn.
    + eauto.
    + done.
    + exfalso. destruct Hloop as [_ Hok]. rewrite Forall_forall in Hok.
      apply Hbad, Hok. apply elem_of_inspected_from. eauto.
  - intros d Hne Hd Hempty Hpass.
    assert (Forall node_ok (inspected_from root d)) as Hok.
    { eapply Forall_impl; [exact Hpass|]. intros n. apply node_ok_passes. }
    rewrite (Hfind Hne).
    destruct (sweep_loop fuel schedulerUnit vtxoTree root ∅ ∅) as [out|err| |].
    + eauto.
    + exfalso. destruct Hloop as (k & Hk & Hbad). apply Hbad.
      destruct (decide (k < d)%nat) as [Hlt|Hge].
      * rewrite Forall_forall in Hok |- *. intros n Hn. apply Hok.
        apply elem_of_inspected_from. eauto.
      * rewrite (level_from_empty_later root d k) by (done || lia). constructor.
    + done.
    + exfalso. destruct Hloop as [Hnonempty _]. apply Hnonempty.
      by apply (level_from_empty_later root d fuel).
  - apply addi64_in_range.
Qed.
End sweeper_spec.

(** * Examples: the theorems at concrete inputs *)

(** ** A queue built by its operations *)

Definition request_a : TxRequest :=
  mkTxRequest "a" [mkVtxo (mkVtxoKey "t1" 0) 1000] [mkReceiver "alice" 1000].

Definition request_b : TxRequest :=
  mkTxRequest "b" [mkVtxo (mkVtxoKey "t2" 1) 500] [mkReceiver "bob" 500].

Definition request_c : TxRequest := mkTxRequest "c" [] [].

(** [b] is pushed at time 3, [a] at time 5, and [c], which has no receivers
    yet, at time 7 with a note. *)
Definition busy_ops : list queue_op :=
  [OpPush 3 request_b [] [] None;
   OpPush 5 request_a [] [] None;
   OpPushWithNotes 7 request_c [mkNote 1 100]].

Definition busy_queue : gmap string timedTxRequest := run_ops busy_ops ∅.

Definition entry_a : timedTxRequest := mkTimed request_a [] [] 5 5 None [].
Definition entry_b : timedTxRequest := mkTimed request_b [] [] 3 3 None [].
Definition entry_c : timedTxRequest :=
  mkTimed request_c [] [mkNote 1 100] 7 0 None [].

(** [entry_a], [entry_b] and [entry_c] are what the queue holds for them. *)
Lemma busy_queue_entries :
  busy_queue !! "a" = Some entry_a ∧ busy_queue !! "b" = Some entry_b
  ∧ busy_queue !! "c" = Some entry_c.
Proof. vm_compute. done. Qed.

Lemma wf_busy_queue : wf_queue busy_queue.
Proof. apply wf_queue_run_ops, wf_queue_empty. Qed.

(** [pop(1)] on the example queue, eight nanoseconds after the start. *)
Lemma pop_fifo_witness :
  wf_queue busy_queue
  ∧ pop_taken 8 1 busy_queue =
    take 1 (sort_SliceStable born_before
              (filter (λ p, eligible 8 p) (range busy_queue).*2)).
Proof.
  split; [exact wf_busy_queue|].
  exact (proj1 (proj2 (proj2 (proj2 (pop_fifo 8 1 busy_queue wf_busy_queue))))).
Defined.

(** The request [c] of the example queue has no receivers. *)
Lemma no_receivers_invisible_witness :
  wf_queue busy_queue
  ∧ busy_queue !! "c" = Some entry_c
  ∧ Receivers (txRequest entry_c) = []
  ∧ (pop 8 (-1) busy_queue).2 !! "c" = Some entry_c
  ∧ len (delete "c" busy_queue) = len busy_queue.
Proof.
  assert (busy_queue !! "c" = Some entry_c) as Hc by (vm_compute; reflexivity).
  split; [exact wf_busy_queue|]. split; [exact Hc|]. split; [reflexivity|].
  destruct (no_receivers_invisible 8 (-1) busy_queue "c" entry_c
              wf_busy_queue Hc eq_refl) as (_ & _ & Hpop & Hlen & _).
  split; [exact Hpop|exact Hlen].
Defined.

(** Three pings of [a], at times 6, 7 and 9. *)
Lemma updatePing_idempotent_witness :
  busy_queue !! "a" = Some entry_a
  ∧ ping_many "a" [6; 7; 9] busy_queue =
    ([None; None; None], (updatePingTimestamp 9 "a" busy_queue).2)
  ∧ (updatePingTimestamp 9 "a" busy_queue).2 =
    <["a" := with_ping 9 entry_a]> busy_queue.
Proof.
  assert (busy_queue !! "a" = Some entry_a) as Ha by (vm_compute; reflexivity).
  split; [exact Ha|].
  destruct (updatePing_idempotent busy_queue "a" [6; 7] 9) as [Hpresent _].
  destruct (Hpresent entry_a Ha) as (Hmany & Hlast & _).
  split; [exact Hmany|exact Hlast].
Defined.

(** ** A forfeit collector with every forfeit in *)

Definition signed_forfeits : forfeitTxsMap :=
  mkForfeits {[mkVtxoKey "t1" 0 := "forfeit1"; mkVtxoKey "t2" 1 := "forfeit2"]}
             example_connectors ∅ [].

(** With every forfeit in, [pop] returns them all. *)
Lemma forfeits_allSigned_pop_witness :
  allSigned signed_forfeits = true
  ∧ ∃ txs, (forfeits_pop signed_forfeits).1 = inr txs
           ∧ txs ≡ₚ (map_to_list (forfeitTxs signed_forfeits)).*2
           ∧ ∀ tx, tx ∈ txs ↔ ∃ k, forfeitTxs signed_forfeits !! k = Some tx.
Proof.
  assert (allSigned signed_forfeits = true) as Hall by (vm_compute; reflexivity).
  split; [exact Hall|].
  destruct (forfeits_allSigned_pop signed_forfeits) as (Hiff & Hpop & _).
  exact (Hpop (proj1 Hiff Hall)).
Defined.


(** ** A traversal *)

(** A vtxo tree of a root and two leaves.  The wallet of the example reports
    the round transaction confirmed at height 100 and the root at height 101;
    the two leaves are not on chain. *)
Definition example_vtxo_tree : TxTree :=
  [[mkNode "n0" "" "round" false];
   [mkNode "n1" "" "n0" true; mkNode "n2" "" "n0" true]].

#[global] Instance example_wallet : WalletService := {|
  IsTransactionConfirmed txid :=
    if bool_decide (txid = "round") then inr (true, 100, 1700000000)
    else if bool_decide (txid = "n0") then inr (true, 101, 1700000600)
    else inr (false, 0, 0)
|}.

(** The builder of the example: a sweep input is named after its node, the
    timelock is 144 blocks; no forfeit is verified. *)
#[global] Instance example_builder : TxBuilder string := {|
  GetSweepInput node := inr (mkLocktime LocktimeTypeBlock 144, nodeTxid node);
  VerifyForfeitTxs _ _ _ _ := inr ∅
|}.

(** The traversal of the example returns both leaves, to be swept at height
    [101 + 144], or with the other scheduler unit at time
    [1700000600 + 144]. *)
Lemma sweep_traversal_witness :
  findSweepableOutputs 5 BlockHeight example_vtxo_tree
  = Returned {[245 := ["n1"; "n2"]]}
  ∧ findSweepableOutputs 5 UnixTime example_vtxo_tree
    = Returned {[1700000744 := ["n1"; "n2"]]}
  ∧ (∃ out, findSweepableOutputs 5 BlockHeight example_vtxo_tree = Returned out)
  ∧ (∃ out, findSweepableOutputs 5 UnixTime example_vtxo_tree = Returned out).
Proof.
  split; [vm_compute; reflexivity|]. split; [vm_compute; reflexivity|].
  split.
  - refine (proj1 (proj2 (proj2 (proj2
              (sweep_traversal BlockHeight example_vtxo_tree 5)))) 2%nat _ _ _ _).
    + discriminate.
    + lia.
    + vm_compute. reflexivity.
    + repeat constructor; vm_compute; eauto.
  - refine (proj1 (proj2 (proj2 (proj2
              (sweep_traversal UnixTime example_vtxo_tree 5)))) 2%nat _ _ _ _).
    + discriminate.
    + lia.
    + vm_compute. reflexivity.
    + repeat constructor; vm_compute; eauto.
Defined.

(** A vtxo tree of which nothing is on chain: the round transaction ["n0"] is
    confirmed at height 101, the root ["n1"] and its two children are not. *)
Definition pending_tree : TxTree :=
  [[mkNode "n1" "" "n0" false];
   [mkNode "n3" "" "n1" true; mkNode "n4" "" "n1" true]].

(** C9 as the spec states it fails on the nodes below a node that is not
    confirmed: ["n3"] is a node of the tree, its transaction is not confirmed
    and neither is that of its parent ["n1"], yet the traversal raises no
    error and returns the sweep input of ["n1"] alone. *)
Lemma sweep_stops_at_unconfirmed :
  findSweepableOutputs 5 BlockHeight pending_tree = Returned {[245 := ["n1"]]}
  ∧ concat pending_tree
    = [mkNode "n1" "" "n0" false; mkNode "n3" "" "n1" true;
       mkNode "n4" "" "n1" true]
  ∧ IsTransactionConfirmed "n3" = inr (false, 0, 0)
  ∧ IsTransactionConfirmed "n1" = inr (false, 0, 0)
  ∧ GetSweepInput (mkNode "n3" "" "n1" true)
    = inr (mkLocktime LocktimeTypeBlock 144, "n3")
  ∧ inspected_from pending_tree (default [] (head pending_tree)) 5
    = [mkNode "n1" "" "n0" false].
Proof. vm_compute. done. Qed.

(** * Further operations and what they guarantee *)

(** ** The request queue: views and deletions *)

(** The inner loop of [viewAll]: the request once if its id is among [ids]. *)
Fixpoint view_match (request : timedTxRequest) (ids : list string)
    : list timedTxRequest :=
  match ids with
  | [] => []
  | id :: ids' =>
    if bool_decide (Id (txRequest request) = id) then [request]
    else view_match request ids'
  end.

(** [viewAll]: the requests named by [ids], all of them if [ids] is empty.
    It returns no error. *)
Definition viewAll `{!MapRange string timedTxRequest} (ids : list string)
    (m : gmap string timedTxRequest) : list timedTxRequest :=
  range m ≫= (λ kp,
    if bool_decide (0 < length ids)%nat then view_match kp.2 ids else [kp.2]).

Section view_facts.
Context `{!MapRange string timedTxRequest}.

Lemma view_match_spec request ids :
  view_match request ids =
  if bool_decide (Id (txRequest request) ∈ ids) then [request] else [].
Proof.
  induction ids as [|id ids IH].
  { done. }
  cbn [view_match]. rewrite IH.
  destruct (decide (Id (txRequest request) = id)) as [Heq|Hne].
  - rewrite (bool_decide_eq_true_2 _ Heq).
    rewrite bool_decide_eq_true_2; [done|]. rewrite Heq. left.
  - rewrite (bool_decide_eq_false_2 _ Hne).
    apply (f_equal (λ b : bool, if b then [request] else [])).
    apply bool_decide_ext. rewrite elem_of_cons.
    split; [by right|by intros [?|?]].
Qed.

Lemma TxRequest_eta (r : TxRequest) :
  mkTxRequest (Id r) (Inputs r) (Receivers r) = r.
Proof. by destruct r. Qed.

Lemma view_lookup id m : view id m = txRequest <$> m !! id.
Proof.
  unfold view. destruct (m !! id) as [r|]; simpl; [|done].
  by rewrite TxRequest_eta.
Qed.

Lemma view_insert_fresh m request entry :
  txRequest entry = request → m !! Id request = None →
  view (Id request) (<[Id request := entry]> m) = Some request
  ∧ view (Id request) m = None
  ∧ ∀ id, id ≠ Id request →
      view id (<[Id request := entry]> m) = view id m.
Proof.
  intros Hentry Hfresh. rewrite !view_lookup, lookup_insert_eq, Hfresh. simpl.
  rewrite Hentry. split; [done|]. split; [done|].
  intros id Hne. by rewrite !view_lookup, lookup_insert_ne.
Qed.

(** X1.  Every queue built from the empty one, by whatever operations, stores each
    request under the id the request carries. *)
Theorem queue_ops_keep_ids (ops : list queue_op) (k : string)
    (r : timedTxRequest) :
  run_ops ops ∅ !! k = Some r → Id (txRequest r) = k.
Proof. apply (wf_queue_run_ops ops ∅ wf_queue_empty). Qed.

(** X2.  An accepted push can be read back: [view] of the new id returns the
    request as pushed, and [view] of every other id returns what it returned
    before.  A rejected push changes no view. *)
Theorem view_after_push (now : Z) (request : TxRequest)
    (bis : list BoardingInput) (recovered : list Vtxo) (musig2 : option Musig2)
    (ns : list Note) (m : gmap string timedTxRequest) :
  ((push now request bis recovered musig2 m).1 = None →
   view (Id request) (push now request bis recovered musig2 m).2 = Some request
   ∧ view (Id request) m = None
   ∧ ∀ id, id ≠ Id request →
       view id (push now request bis recovered musig2 m).2 = view id m)
  ∧ ((pushWithNotes now request ns m).1 = None →
     view (Id request) (pushWithNotes now request ns m).2 = Some request
     ∧ view (Id request) m = None
     ∧ ∀ id, id ≠ Id request →
         view id (pushWithNotes now request ns m).2 = view id m)
  ∧ (∀ e, (push now request bis recovered musig2 m).1 = Some e →
       (push now request bis recovered musig2 m).2 = m)
  ∧ (∀ e, (pushWithNotes now request ns m).1 = Some e →
       (pushWithNotes now request ns m).2 = m).
Proof.
  split; [|split; [|split]].
  - destruct (push_cases now request bis recovered musig2 m) as [[e ->]|[Hf ->]];
      [done|]. intros _. by apply view_insert_fresh.
  - destruct (pushWithNotes_cases now request ns m) as [[e ->]|[Hf ->]];
      [done|]. intros _. by apply view_insert_fresh.
  - intros e.
    by destruct (push_cases now request bis recovered musig2 m) as [[e' ->]|[Hf ->]].
  - intros e.
    by destruct (pushWithNotes_cases now request ns m) as [[e' ->]|[Hf ->]].
Qed.
End view_facts.


Section view_all_facts.
Context `{!MapRange string timedTxRequest}.

Lemma viewAll_empty m : viewAll [] m = (range m).*2.
Proof.
  unfold viewAll. induction (range m) as [|kp l IH]; [done|].
  rewrite fmap_cons, <-IH. done.
Qed.

Lemma viewAll_named ids m :
  ids ≠ [] →
  viewAll ids m = filter (λ r, Id (txRequest r) ∈ ids) (range m).*2.
Proof.
  intros Hne. unfold viewAll.
  rewrite bool_decide_eq_true_2 by (destruct ids; [done|simpl; lia]).
  induction (range m) as [|kp l IH]; [done|].
  rewrite fmap_cons, filter_cons, <-IH.
  change ((kp :: l) ≫= (λ kp0, view_match kp0.2 ids))
    with (view_match kp.2 ids ++ (l ≫= (λ kp0, view_match kp0.2 ids))).
  rewrite view_match_spec. case_bool_decide; by case_decide.
Qed.
Lemma NoDup_range_wf (m : gmap string timedTxRequest) : NoDup (range m).
Proof. eapply NoDup_fmap_1, NoDup_fst_range. Qed.

(** X3.  [viewAll] returns every stored request once when no id is given, and
    otherwise exactly the stored requests whose id is among [ids]: an id that
    names no request adds nothing and an id given twice adds nothing twice. *)
Theorem viewAll_selects (ids : list string) (m : gmap string timedTxRequest) :
  viewAll [] m ≡ₚ (map_to_list m).*2
  ∧ (ids ≠ [] →
     viewAll ids m
     ≡ₚ filter (λ r, Id (txRequest r) ∈ ids) (map_to_list m).*2)
  ∧ (wf_queue m → ids ≠ [] →
     NoDup (viewAll ids m)
     ∧ ∀ r, r ∈ viewAll ids m
            ↔ Id (txRequest r) ∈ ids ∧ m !! Id (txRequest r) = Some r).
Proof.
  split; [|split].
  - by rewrite viewAll_empty, (range_perm m).
  - intros Hne. by rewrite viewAll_named, (range_perm m).
  - intros Hwf Hne. rewrite viewAll_named by done. split.
    + apply NoDup_filter. apply NoDup_fmap_2_strong; [|apply NoDup_range_wf].
      intros [k1 r1] [k2 r2] Hk1%elem_of_range Hk2%elem_of_range Heq.
      simpl in Heq. subst r2. f_equal.
      by rewrite <-(Hwf _ _ Hk1), <-(Hwf _ _ Hk2).
    + intros r. rewrite list_elem_of_filter, elem_of_range_snd. split.
      * intros [Hin [k Hk]]. split; [done|]. by rewrite (Hwf _ _ Hk).
      * intros [Hin Hr]. eauto.
Qed.

(** X4.  [delete(ids)] removes exactly the requests named: afterwards [view] finds
    none of them and finds every other request as before.  Ids that name no
    request are ignored, deleting twice is deleting once, and after
    [deleteAll] nothing is left to view or to count. *)
Theorem delete_removes_named (ids : list string)
    (m : gmap string timedTxRequest) :
  (∀ id, view id (delete_ids ids m) =
         if bool_decide (id ∈ ids) then None else view id m)
  ∧ delete_ids ids (delete_ids ids m) = delete_ids ids m
  ∧ ((∀ id, id ∈ ids → m !! id = None) → delete_ids ids m = m)
  ∧ (∀ ids', delete_ids ids' (delete_ids ids m) = delete_ids (ids ++ ids') m)
  ∧ len (deleteAll m) = 0
  ∧ ∀ id, view id (deleteAll m) = None.
Proof.
  split; [|split; [|split; [|split; [|split]]]].
  - intros id. rewrite !view_lookup, delete_ids_lookup. by case_bool_decide.
  - apply map_eq. intros k. rewrite !delete_ids_lookup. by case_bool_decide.
  - intros Hnone. apply map_eq. intros k. rewrite delete_ids_lookup.
    case_bool_decide; [|done]. symmetry. by apply Hnone.
  - intros ids'. unfold delete_ids. by rewrite foldl_app.
  - unfold len, deleteAll.
    assert (range (∅ : gmap string timedTxRequest) = []) as ->; [|done].
    apply Permutation_nil_r. by rewrite (range_perm ∅), map_to_list_empty.
  - intros id. by rewrite view_lookup.
Qed.

End view_all_facts.

(** ** The request queue: counting and updating *)

Section len_update_facts.
Context `{!MapRange string timedTxRequest}.

Lemma len_map_to_list m :
  len m = Z.of_nat (length (filter
            (λ kp : string * timedTxRequest,
               0 < length (Receivers (txRequest kp.2)))%nat
            (map_to_list m))).
Proof. unfold len. by rewrite (range_perm m). Qed.

(** X5.  [len] counts the requests that have receivers, whatever the order in
    which the map is ranged over: it is never negative and never more than the
    number of requests, and an accepted push raises it by one exactly when the
    pushed request has receivers. *)
Theorem len_counts_requests_with_receivers (now : Z) (request : TxRequest)
    (bis : list BoardingInput) (recovered : list Vtxo) (musig2 : option Musig2)
    (m : gmap string timedTxRequest) :
  0 ≤ len m ≤ Z.of_nat (size m)
  ∧ len (∅ : gmap string timedTxRequest) = 0
  ∧ ((push now request bis recovered musig2 m).1 = None →
     len (push now request bis recovered musig2 m).2 =
     len m + (if bool_decide (Receivers request = []) then 0 else 1))
  ∧ (∀ e, (push now request bis recovered musig2 m).1 = Some e →
       len (push now request bis recovered musig2 m).2 = len m).
Proof.
  split; [|split; [|split]].
  - rewrite len_map_to_list, <-length_map_to_list.
    pose proof (length_filter
      (λ kp : string * timedTxRequest,
         0 < length (Receivers (txRequest kp.2)))%nat (map_to_list m)).
    lia.
  - by rewrite len_map_to_list, map_to_list_empty.
  - destruct (push_cases now request bis recovered musig2 m) as [[e ->]|[Hf ->]];
      [done|]. intros _. simpl. rewrite !len_map_to_list.
    rewrite map_to_list_insert by done.
    destruct (Receivers request) as [|rcv rcvs] eqn:Hrcv.
    + rewrite filter_cons_False by (simpl; rewrite Hrcv; simpl; lia).
      rewrite bool_decide_eq_true_2 by done. lia.
    + rewrite filter_cons_True by (simpl; rewrite Hrcv; simpl; lia).
      rewrite bool_decide_eq_false_2 by done. simpl length. lia.
  - intros e.
    by destruct (push_cases now request bis recovered musig2 m) as [[e' ->]|[Hf ->]].
Qed.

(** X6.  An accepted [update] replaces the request stored under the id and, when
    one is given, the musig2 data; the boarding inputs, notes, recovered vtxos
    and both timestamps of the entry stay, and so do all other entries and the
    set of ids.  Whether [update] accepts depends on nothing but the entry
    stored under that id: the other requests of the queue are not looked at. *)
Theorem update_touches_one_entry (request : TxRequest) (musig2 : option Musig2)
    (m : gmap string timedTxRequest) (r : timedTxRequest) :
  m !! Id request = Some r →
  (update request musig2 m).1 = (update request musig2 {[Id request := r]}).1
  ∧ dom (update request musig2 m).2 = dom m
  ∧ (∀ k, k ≠ Id request → (update request musig2 m).2 !! k = m !! k)
  ∧ ((update request musig2 m).1 = None →
     ∃ r', (update request musig2 m).2 !! Id request = Some r'
       ∧ txRequest r' = request
       ∧ musig2Data r' = (if musig2 is Some d then Some d else musig2Data r)
       ∧ boardingInputs r' = boardingInputs r ∧ notes r' = notes r
       ∧ recoveredVtxos r' = recoveredVtxos r
       ∧ timestamp r' = timestamp r ∧ pingTimestamp r' = pingTimestamp r)
  ∧ (∀ e, (update request musig2 m).1 = Some e →
       (update request musig2 m).2 = m).
Proof.
  intros Hr. unfold update. rewrite Hr, lookup_singleton_eq.
  case_bool_decide as Hsum; simpl.
  - split; [done|]. split; [done|]. split; [done|]. split; [done|]. done.
  - split; [done|]. split; [|split; [|split]].
    + apply dom_insert_lookup_L. eauto.
    + intros k Hk. by rewrite lookup_insert_ne.
    + intros _. eexists. rewrite lookup_insert_eq. split; [done|]. simpl.
      repeat split; done.
    + intros e He. done.
Qed.
End len_update_facts.

(** ** The request queue: pops in sequence *)

Section pop_sequences.
Context `{!MapRange string timedTxRequest}.

Lemma pop_taken_unbounded now num m p :
  wf_queue m → num < 0 →
  p ∈ pop_taken now num m
  ↔ m !! Id (txRequest p) = Some p ∧ eligible now p = true.
Proof.
  intros Hwf Hneg. split; [by apply pop_taken_elem|].
  intros [Hp Hel]. rewrite pop_taken_spec by done. cbv zeta.
  rewrite take_pop_bound, bool_decide_eq_true_2 by done.
  rewrite (sort_SliceStable_perm born_before).
  apply list_elem_of_filter. split; [by rewrite Hel|].
  apply elem_of_range_snd. eauto.
Qed.

Lemma pop_taken_none now num m :
  wf_queue m →
  (∀ k p, m !! k = Some p → eligible now p = false) →
  pop_taken now num m = [].
Proof.
  intros Hwf Hnone. rewrite pop_taken_spec by done. cbv zeta.
  assert (filter (λ p, eligible now p) (range m).*2 = []) as ->.
  { destruct (filter _ _) as [|p l] eqn:Hf; [done|]. exfalso.
    assert (p ∈ p :: l) as Hin by left. rewrite <-Hf in Hin.
    apply list_elem_of_filter in Hin as [Hel [k Hk]%elem_of_range_snd].
    by rewrite (Hnone k p Hk) in Hel. }
  simpl. by destruct (Z.to_nat _).
Qed.

(** X7.  After a pop that asked for everything, a second pop at the same clock
    reading returns nothing and leaves the queue as it is: whatever is still
    queued has no receivers or has not pinged within the last minute. *)
Theorem pop_all_then_pop (now num : Z) (m : gmap string timedTxRequest) :
  wf_queue m →
  pop now num (pop now (-1) m).2 = (mkPopped [] [] [] [] [], (pop now (-1) m).2)
  ∧ ∀ k p, (pop now (-1) m).2 !! k = Some p →
      m !! k = Some p
      ∧ (Receivers (txRequest p) = []
         ∨ 1 * nanosPerMinute < now - pingTimestamp p ≤ 5 * nanosPerMinute).
Proof.
  intros Hwf.
  assert (wf_queue (pop now (-1) m).2) as Hwf1
    by apply (wf_queue_run_op (OpPop now (-1)) m Hwf).
  assert (∀ k p, (pop now (-1) m).2 !! k = Some p →
            m !! k = Some p ∧ stale now p = false ∧ eligible now p = false)
    as Hleft.
  { intros k p. rewrite pop_lookup by done.
    destruct (m !! k) as [p'|] eqn:Hk; [|done].
    destruct (stale now p') eqn:Hst; [done|]. simpl.
    case_bool_decide as Hin; [done|]. intros [= <-]. split; [done|].
    split; [done|]. destruct (eligible now p') eqn:Hel; [|done].
    exfalso. apply Hin. apply pop_taken_unbounded; [done|lia|].
    by rewrite (Hwf _ _ Hk). }
  assert (pop_taken now num (pop now (-1) m).2 = []) as Hnone.
  { apply pop_taken_none; [done|]. intros k p Hp.
    by destruct (Hleft _ _ Hp) as (_ & _ & ?). }
  split.
  - set (m1 := (pop now (-1) m).2) in *. unfold pop. rewrite Hnone.
    cbn [fmap list_fmap mbind list_bind foldl].
    rewrite pop_scan_range by done. cbn [fst]. f_equal.
    apply map_eq. intros k. rewrite drop_stale_range_lookup.
    destruct (m1 !! k) as [p|] eqn:Hp; [|done].
    by destruct (Hleft _ _ Hp) as (_ & -> & _).
  - intros k p Hp. apply Hleft in Hp as (Hk & Hst & Hel). split; [done|].
    unfold stale, eligible, has_receivers, ping_older in Hst, Hel.
    destruct (Receivers (txRequest p)) as [|rcv rcvs]; [by left|right].
    rewrite bool_decide_eq_true_2 in Hst, Hel by (simpl; lia).
    simpl in Hst, Hel. apply bool_decide_eq_false in Hst.
    apply negb_false_iff, bool_decide_eq_true in Hel.
    unfold selectGapMinutes, deleteGapMinutes in *. lia.
Qed.

(** X8.  [pop(0)] returns no request, but it still drops from the queue every
    request that has receivers and has not pinged for more than five minutes;
    every other request stays. *)
Theorem pop_zero_only_cleans (now : Z) (m : gmap string timedTxRequest) :
  wf_queue m →
  (pop now 0 m).1 = mkPopped [] [] [] [] []
  ∧ ∀ k, (pop now 0 m).2 !! k =
      match m !! k with
      | Some p =>
        if has_receivers p && ping_older now deleteGapMinutes p then None
        else Some p
      | None => None
      end.
Proof.
  intros Hwf.
  assert (pop_taken now 0 m = []) as Hnone.
  { rewrite pop_taken_spec by done. cbv zeta.
    rewrite take_pop_bound. by rewrite bool_decide_eq_false_2 by lia. }
  split.
  - unfold pop. by rewrite Hnone.
  - intros k. rewrite pop_lookup, Hnone by done.
    destruct (m !! k) as [p|]; [|done].
    rewrite bool_decide_eq_false_2 by apply not_elem_of_nil.
    by rewrite orb_false_r.
Qed.
End pop_sequences.

(** ** The request queue: what a ping is worth *)

Section ping_and_pop.
Context `{!MapRange string timedTxRequest}.

Lemma stale_eligible_false now p : stale now p = true → eligible now p = false.
Proof.
  unfold stale, eligible. destruct (has_receivers p); simpl; [|done].
  intros H5%ping_older_5_1. by rewrite H5.
Qed.

(** What [pop] does with one entry, by its receivers and its last ping. *)
Lemma pop_entry_fate now num m k p :
  wf_queue m → m !! k = Some p →
  (stale now p = true →
   (pop now num m).2 !! k = None
   ∧ (txRequest p ∉ poppedRequests (pop now num m).1))
  ∧ (eligible now p = true → num < 0 →
     (pop now num m).2 !! k = None
     ∧ txRequest p ∈ poppedRequests (pop now num m).1).
Proof.
  intros Hwf Hk. split.
  - intros Hst. split.
    + by rewrite pop_lookup, Hk, Hst by done.
    + unfold pop. simpl. intros (p' & Heq & Hin)%list_elem_of_fmap.
      destruct (pop_taken_elem _ _ _ _ Hwf Hin) as [Hp' Hel].
      assert (p' = p) as ->.
      { rewrite <-Heq, (Hwf _ _ Hk) in Hp'. congruence. }
      by rewrite (stale_eligible_false now p Hst) in Hel.
  - intros Hel Hneg.
    assert (p ∈ pop_taken now num m) as Hin.
    { apply pop_taken_unbounded; [done..|]. by rewrite (Hwf _ _ Hk). }
    split.
    + rewrite pop_lookup, Hk by done.
      by rewrite (bool_decide_eq_true_2 _ Hin), orb_true_r.
    + unfold pop. simpl. apply list_elem_of_fmap. eauto.
Qed.

(** X9.  A request pushed with notes starts with the zero ping time.  Once an
    update has given it receivers, the next pop, at any clock reading more
    than five minutes past the zero time, drops it from the queue without
    returning it, unless a ping came first: after a ping no more than a
    minute old, a pop that asks for everything returns it. *)
Theorem notes_request_needs_ping (now1 now2 ping num : Z)
    (request request' : TxRequest) (ns : list Note) (musig2 : option Musig2)
    (m : gmap string timedTxRequest) :
  wf_queue m →
  (pushWithNotes now1 request ns m).1 = None →
  Id request' = Id request → Receivers request' ≠ [] →
  (update request' musig2 (pushWithNotes now1 request ns m).2).1 = None →
  5 * nanosPerMinute < now2 →
  let queued := (update request' musig2 (pushWithNotes now1 request ns m).2).2 in
  ((pop now2 num queued).2 !! Id request = None
   ∧ (request' ∉ poppedRequests (pop now2 num queued).1))
  ∧ (now2 - ping ≤ 1 * nanosPerMinute → num < 0 →
     request' ∈ poppedRequests
       (pop now2 num (updatePingTimestamp ping (Id request) queued).2).1).
Proof.
  intros Hwf Hpush Hid Hrcv Hupd Hnow queued.
  destruct (pushWithNotes_cases now1 request ns m) as [[e He]|[Hfresh Heq]];
    [by rewrite He in Hpush|].
  assert (wf_queue queued) as Hwfq.
  { apply (wf_queue_run_op (OpUpdate request' musig2)).
    by apply (wf_queue_run_op (OpPushWithNotes now1 request ns)). }
  assert (∃ p, queued !! Id request = Some p ∧ txRequest p = request'
               ∧ pingTimestamp p = zeroTime) as (p & Hp & Htx & Hping).
  { unfold queued. clear queued Hwfq.
    set (m1 := (pushWithNotes now1 request ns m).2) in *.
    assert (m1 !! Id request' = Some (mkTimed request [] ns now1 zeroTime None []))
      as Hm1.
    { unfold m1. rewrite Heq, Hid. simpl. apply lookup_insert_eq. }
    destruct (update_cases request' musig2 m1) as [[e He]|(r & Hr & Hu)];
      [by rewrite He in Hupd|].
    rewrite Hu. simpl. rewrite <-Hid, lookup_insert_eq.
    rewrite Hm1 in Hr. injection Hr as <-. eexists. split; [done|]. done. }
  assert (has_receivers p = true) as Hhas.
  { unfold has_receivers. rewrite Htx. apply bool_decide_eq_true.
    destruct (Receivers request'); [done|simpl; lia]. }
  split.
  - rewrite <-Htx. apply pop_entry_fate; [done..|].
    unfold stale, ping_older. rewrite Hhas, Hping. simpl.
    apply bool_decide_eq_true. unfold deleteGapMinutes, zeroTime. lia.
  - intros Hfresh' Hneg.
    rewrite (updatePingTimestamp_present _ _ _ _ Hp). simpl.
    assert (txRequest (with_ping ping p) = request') as <- by done.
    eapply (pop_entry_fate now2 num _ (Id request)); [| |..].
    + intros k r. rewrite lookup_insert. case_decide as Hk.
      * intros [= <-]. subst k. simpl. by rewrite Htx.
      * apply Hwfq.
    + apply lookup_insert_eq.
    + unfold eligible, ping_older, has_receivers in *. simpl.
      rewrite Hhas. simpl. apply negb_true_iff, bool_decide_eq_false.
      unfold selectGapMinutes. lia.
    + done.
Qed.
End ping_and_pop.

(** ** The request queue: first pushed, first popped *)

Section fifo_pushes.
Context `{!MapRange string timedTxRequest}.

Lemma sorted_pair {A} (key : A → Z) (l : list A) x y :
  l ≡ₚ [x; y] → StronglySorted (λ a b, key a ≤ key b) l → key x < key y →
  l = [x; y].
Proof.
  intros Hperm Hs Hlt. symmetry in Hperm.
  apply Permutation_length_2_inv in Hperm as [->| ->]; [done|].
  apply StronglySorted_inv in Hs as [_ Hy]. apply Forall_cons in Hy as [Hy _]. lia.
Qed.

Lemma push_on_empty now request bis recovered musig2 :
  push now request bis recovered musig2 ∅ =
  (None, {[Id request := mkTimed request bis [] now now musig2 recovered]}).
Proof.
  rewrite push_accepts; [done|apply lookup_empty|..];
    intros (x & k & r & y & _ & Hk & _); by rewrite lookup_empty in Hk.
Qed.

Lemma eligible_fresh now t p :
  Receivers (txRequest p) ≠ [] → pingTimestamp p = t →
  now - t ≤ 1 * nanosPerMinute → eligible now p = true.
Proof.
  intros Hrcv Hping Hnow. unfold eligible, has_receivers, ping_older.
  rewrite bool_decide_eq_true_2 by (destruct (Receivers (txRequest p)); [done|simpl; lia]).
  simpl. apply negb_true_iff, bool_decide_eq_false.
  unfold selectGapMinutes. lia.
Qed.

Lemma stale_false_of_eligible now p :
  eligible now p = true → stale now p = false.
Proof.
  intros Hel. destruct (stale now p) eqn:Hst; [|done].
  by rewrite (stale_eligible_false now p Hst) in Hel.
Qed.

(** X10.  Two requests with receivers are pushed into an empty queue, one after
    the other, and a pop for one request follows within a minute of the first
    push: the pop returns the request pushed first, with its boarding inputs,
    recovered vtxos and musig2 data, and leaves the other in the queue. *)
Theorem first_pushed_first_popped (t1 t2 now : Z) (a b : TxRequest)
    (bis_a bis_b : list BoardingInput) (rec_a rec_b : list Vtxo)
    (mu_a mu_b : option Musig2) :
  t1 < t2 → now - t1 ≤ 1 * nanosPerMinute →
  Receivers a ≠ [] → Receivers b ≠ [] →
  let m1 := (push t1 a bis_a rec_a mu_a ∅).2 in
  (push t2 b bis_b rec_b mu_b m1).1 = None →
  let m2 := (push t2 b bis_b rec_b mu_b m1).2 in
  (pop now 1 m2).1 = mkPopped [a] bis_a [] [mu_a] rec_a
  ∧ (pop now 1 m2).2 = {[Id b := mkTimed b bis_b [] t2 t2 mu_b rec_b]}.
Proof.
  intros Ht Hnow Hra Hrb m1 Hpush m2.
  set (ea := mkTimed a bis_a [] t1 t1 mu_a rec_a).
  set (eb := mkTimed b bis_b [] t2 t2 mu_b rec_b).
  assert (m1 = {[Id a := ea]}) as Hm1 by (unfold m1; by rewrite push_on_empty).
  destruct (push_cases t2 b bis_b rec_b mu_b m1) as [[e He]|[Hfresh Heq]];
    [by rewrite He in Hpush|].
  assert (m2 = <[Id b := eb]> {[Id a := ea]}) as Hm2
    by (unfold m2; by rewrite Heq, Hm1).
  assert (Id b ≠ Id a) as Hne.
  { intros Hab. rewrite Hm1, Hab, lookup_singleton_eq in Hfresh. done. }
  assert (wf_queue m2) as Hwf.
  { apply (wf_queue_run_op (OpPush t2 b bis_b rec_b mu_b)).
    apply (wf_queue_run_op (OpPush t1 a bis_a rec_a mu_a)), wf_queue_empty. }
  assert (eligible now ea = true) as Hea by (by apply (eligible_fresh now t1)).
  assert (eligible now eb = true) as Heb
    by (apply (eligible_fresh now t2); [done..|lia]).
  assert (pop_taken now 1 m2 = [ea]) as Htaken.
  { rewrite pop_taken_spec by done. cbv zeta. rewrite take_pop_bound.
    rewrite bool_decide_eq_false_2 by lia.
    assert (sort_SliceStable born_before
              (filter (λ p, eligible now p) (range m2).*2) = [ea; eb]) as ->;
      [|reflexivity].
    apply (sorted_pair timestamp);
      [|apply (sort_by_key_sorted timestamp)|exact Ht].
    rewrite (sort_SliceStable_perm born_before), (range_perm m2), Hm2.
    rewrite map_to_list_insert by (by rewrite lookup_singleton_ne).
    rewrite map_to_list_singleton. simpl.
    rewrite filter_cons_True by (simpl; by rewrite Heb).
    rewrite filter_cons_True by (simpl; by rewrite Hea).
    rewrite filter_nil. apply Permutation_swap. }
  split.
  - unfold pop. rewrite Htaken. simpl. by rewrite !app_nil_r.
  - apply map_eq. intros k. rewrite pop_lookup, Htaken by done.
    rewrite Hm2. destruct (decide (k = Id b)) as [->|Hkb].
    + rewrite lookup_insert_eq, lookup_singleton_eq.
      rewrite (stale_false_of_eligible now eb Heb). simpl.
      rewrite bool_decide_eq_false_2; [done|].
      intros Hin%list_elem_of_singleton. apply Hne.
      by apply (f_equal (λ p, Id (txRequest p))) in Hin.
    + rewrite lookup_insert_ne, (lookup_singleton_ne (Id b)) by done.
      destruct (decide (k = Id a)) as [->|Hka].
      * rewrite lookup_singleton_eq.
        rewrite bool_decide_eq_true_2 by left. by rewrite orb_true_r.
      * by rewrite lookup_singleton_ne.
Qed.
End fifo_pushes.

(** ** The request queue: disjointness through every operation but update *)

(** The operations that keep the requests of the queue disjoint: all of them
    except [update], with pushes-with-notes restricted to requests that carry
    no input vtxo. *)
Definition keeps_disjoint (op : queue_op) : Prop :=
  match op with
  | OpUpdate _ _ => False
  | OpPushWithNotes _ request _ => Inputs request = []
  | _ => True
  end.

Section disjoint_ops.
Context `{!MapRange string timedTxRequest}.

Lemma unique_queue_same_lists m m' :
  (∀ k p', m' !! k = Some p' →
     ∃ p, m !! k = Some p
          ∧ Inputs (txRequest p') = Inputs (txRequest p)
          ∧ boardingInputs p' = boardingInputs p
          ∧ recoveredVtxos p' = recoveredVtxos p
          ∧ notes p' = notes p) →
  unique_queue m → unique_queue m'.
Proof.
  intros Hsame Hu k1 k2 r1 r2 Hne H1 H2.
  destruct (Hsame _ _ H1) as (p1 & Hp1 & -> & -> & -> & ->).
  destruct (Hsame _ _ H2) as (p2 & Hp2 & -> & -> & -> & ->).
  by apply (Hu k1 k2).
Qed.

Lemma unique_queue_run_op op m :
  keeps_disjoint op → wf_queue m → unique_queue m → unique_queue (run_op op m).
Proof.
  destruct op as [now rq bis rc mu|now rq ns|now num|rq mu|now id|ids|];
    intros Hop Hwf Hu; try done.
  - by apply (unique_queue_push_op (OpPush now rq bis rc mu)).
  - by apply (unique_queue_push_op (OpPushWithNotes now rq ns)).
  - apply (unique_queue_same_lists m); [|done]. intros k p'. unfold run_op.
    rewrite pop_lookup by done. destruct (m !! k) as [p|]; [|done].
    destruct (_ || _); [done|]. intros [= <-]. eauto 10.
  - apply (unique_queue_same_lists m); [|done]. intros k p'. unfold run_op.
    unfold updatePingTimestamp. destruct (m !! id) as [r|] eqn:Hid; simpl.
    + rewrite lookup_insert. case_decide as Hk.
      * intros [= <-]. subst k. exists r. done.
      * eauto 10.
    + eauto 10.
  - apply (unique_queue_same_lists m); [|done]. intros k p'. unfold run_op.
    rewrite delete_ids_lookup. case_bool_decide; [done|]. eauto 10.
Qed.

(** X11.  Pops, pings and deletions never make two requests share what they spend:
    after any sequence of operations without an [update], in which the
    requests pushed with notes carry no input vtxo, no two requests of the
    queue share an input vtxo, a boarding input, a recovered vtxo or a note
    id. *)
Theorem queue_stays_disjoint (ops : list queue_op) :
  Forall keeps_disjoint ops → unique_queue (run_ops ops ∅).
Proof.
  intros Hops. unfold run_ops.
  assert (∀ m, wf_queue m → unique_queue m →
            unique_queue (foldl (λ q op, run_op op q) m ops)) as Hgen;
    [|apply Hgen; [apply wf_queue_empty|apply unique_queue_empty]].
  induction Hops as [|op ops Hop Hops IH]; intros m Hwf Hu; [done|].
  simpl. apply IH; [by apply wf_queue_run_op|by apply unique_queue_run_op].
Qed.
End disjoint_ops.

(** ** The forfeit collector: submissions *)

Section sign_facts.
Context `{!TxTreeOps} `{!SortSlice} `{!MapRange VtxoKey string}.
Context {SweepInput : Type} `{!TxBuilder SweepInput}.

Lemma store_forfeits_dom (it : list (VtxoKey * string))
    (txs : gmap VtxoKey string) :
  dom (store_forfeits it txs).2 = dom txs.
Proof.
  revert txs. induction it as [|[k tx] it IH]; intros txs; simpl; [done|].
  destruct (txs !! k) as [old|] eqn:Hk; [|done].
  rewrite IH. apply dom_insert_lookup_L. eauto.
Qed.

Lemma store_forfeits_ok (it : list (VtxoKey * string))
    (txs : gmap VtxoKey string) :
  NoDup it.*1 → (∀ k tx, (k, tx) ∈ it → is_Some (txs !! k)) →
  (store_forfeits it txs).1 = None
  ∧ (∀ k tx, (k, tx) ∈ it → (store_forfeits it txs).2 !! k = Some tx)
  ∧ (∀ k, k ∉ it.*1 → (store_forfeits it txs).2 !! k = txs !! k).
Proof.
  revert txs. induction it as [|[k tx] it IH]; intros txs Hnd Hin.
  { simpl. split; [done|]. split; [|done]. by intros k tx ?%elem_of_nil. }
  apply NoDup_cons in Hnd as [Hk Hnd]. simpl.
  destruct (Hin k tx) as [old Hold]; [left|]. rewrite Hold.
  destruct (IH (<[k := tx]> txs) Hnd) as (Herr & Hstored & Hrest).
  { intros k' tx' Hin'. rewrite lookup_insert. case_decide; [eauto|].
    apply (Hin k' tx'). by right. }
  split; [done|]. split.
  - intros k' tx' [[= -> ->]|Hin']%elem_of_cons; [|by apply Hstored].
    rewrite Hrest by done. apply lookup_insert_eq.
  - intros k' Hk'. apply not_elem_of_cons in Hk' as [Hne Hk'].
    rewrite Hrest by done. by apply lookup_insert_ne.
Qed.

Lemma store_forfeits_unexpected (it : list (VtxoKey * string))
    (txs : gmap VtxoKey string) :
  (∃ k tx, (k, tx) ∈ it ∧ txs !! k = None) →
  ∃ k, (store_forfeits it txs).1 = Some (ErrUnexpectedForfeit k)
       ∧ k ∈ it.*1 ∧ txs !! k = None.
Proof.
  revert txs. induction it as [|[k tx] it IH]; intros txs (k0 & tx0 & Hin & Hk0).
  { by apply elem_of_nil in Hin. }
  simpl. destruct (txs !! k) as [old|] eqn:Hk.
  - apply elem_of_cons in Hin as [[= -> ->]|Hin]; [congruence|].
    destruct (IH (<[k := tx]> txs)) as (k1 & Herr & Hk1 & Hnone).
    { exists k0, tx0. split; [done|]. rewrite lookup_insert_ne; [done|].
      intros ->. congruence. }
    exists k1. split; [done|]. split; [by right|].
    rewrite lookup_insert in Hnone. by case_decide.
  - exists k. split; [done|]. split; [left|done].
Qed.

(** X12.  What [sign] checks before it stores anything, and what it never touches.
    An empty submission is accepted and changes nothing; a non-empty one is
    refused, with the collector unchanged, when the collector holds no vtxos
    or no connector tree, and when the builder's verification fails, with the
    builder's error.  Whatever the outcome, [sign] leaves the connectors, the
    connectors index and the vtxo list as they are and adds no vtxo to, and
    removes none from, the forfeit map. *)
Theorem sign_guards (txs : list string) (m : forfeitTxsMap) :
  sign [] m = (None, m)
  ∧ (txs ≠ [] → vtxos m = [] ∨ connectors m = [] →
     sign txs m = (Some ErrForfeitsNotInitialized, m))
  ∧ (∀ e, txs ≠ [] → vtxos m ≠ [] → connectors m ≠ [] →
       VerifyForfeitTxs (vtxos m) (connectors m) txs (connectorsIndex m) = inl e →
       sign txs m = (Some e, m))
  ∧ connectors (sign txs m).2 = connectors m
  ∧ connectorsIndex (sign txs m).2 = connectorsIndex m
  ∧ vtxos (sign txs m).2 = vtxos m
  ∧ dom (forfeitTxs (sign txs m).2) = dom (forfeitTxs m).
Proof.
  assert (∀ A (l : list A), bool_decide (length l = 0%nat) = bool_decide (l = []))
    as Hlen.
  { intros A l. apply bool_decide_ext. by destruct l. }
  unfold sign. rewrite !Hlen.
  split; [done|]. split; [|split].
  - intros Hne [Hv|Hc].
    + rewrite (bool_decide_eq_false_2 _ Hne), (bool_decide_eq_true_2 _ Hv). done.
    + rewrite (bool_decide_eq_false_2 _ Hne), (bool_decide_eq_true_2 _ Hc).
      by rewrite orb_true_r.
  - intros e Hne Hv Hc Hverify.
    rewrite (bool_decide_eq_false_2 _ Hne), (bool_decide_eq_false_2 _ Hv),
      (bool_decide_eq_false_2 _ Hc), Hverify. done.
  - case_bool_decide; [done|]. destruct (_ || _); [done|].
    destruct (VerifyForfeitTxs _ _ _ _) as [e|valid]; [done|]. simpl.
    by rewrite store_forfeits_dom.
Qed.

(** X13.  A verified submission is stored as verified: when every vtxo the builder
    returns a forfeit for is in the batch, [sign] succeeds, the forfeit of each
    such vtxo is replaced by the verified one and the others keep theirs.
    When the builder returns a forfeit for a vtxo that is not in the batch,
    [sign] fails with the unexpected-forfeit error for such a vtxo. *)
Theorem sign_stores_verified (txs : list string) (m : forfeitTxsMap)
    (valid : gmap VtxoKey string) :
  txs ≠ [] → vtxos m ≠ [] → connectors m ≠ [] →
  VerifyForfeitTxs (vtxos m) (connectors m) txs (connectorsIndex m) = inr valid →
  ((∀ k, is_Some (valid !! k) → is_Some (forfeitTxs m !! k)) →
   (sign txs m).1 = None
   ∧ ∀ k, forfeitTxs (sign txs m).2 !! k =
          match valid !! k with
          | Some tx => Some tx
          | None => forfeitTxs m !! k
          end)
  ∧ ((∃ k, is_Some (valid !! k) ∧ forfeitTxs m !! k = None) →
     ∃ k, (sign txs m).1 = Some (ErrUnexpectedForfeit k)
          ∧ is_Some (valid !! k) ∧ forfeitTxs m !! k = None).
Proof.
  intros Hne Hv Hc Hverify.
  assert (sign txs m =
          ((store_forfeits (range valid) (forfeitTxs m)).1,
           mkForfeits (store_forfeits (range valid) (forfeitTxs m)).2
             (connectors m) (connectorsIndex m) (vtxos m))) as ->.
  { unfold sign. rewrite Hverify.
    rewrite bool_decide_eq_false_2 by (by destruct txs).
    rewrite bool_decide_eq_false_2 by (by destruct (vtxos m)).
    rewrite bool_decide_eq_false_2 by (by destruct (connectors m)). done. }
  simpl. split.
  - intros Hin.
    destruct (store_forfeits_ok (range valid) (forfeitTxs m))
      as (Herr & Hstored & Hrest); [apply NoDup_fst_range| |].
    { intros k tx Hk%elem_of_range. apply Hin. eauto. }
    split; [done|]. intros k. destruct (valid !! k) as [tx|] eqn:Hk.
    + apply Hstored. by apply elem_of_range.
    + apply Hrest. intros ([k' tx] & -> & Hk')%list_elem_of_fmap.
      apply elem_of_range in Hk'. simpl in Hk. congruence.
  - intros (k & [tx Hk] & Hnone).
    destruct (store_forfeits_unexpected (range valid) (forfeitTxs m))
      as (k' & Herr & Hk' & Hnone').
    { exists k, tx. split; [by apply elem_of_range|done]. }
    exists k'. split; [done|]. split; [|done].
    apply list_elem_of_fmap in Hk' as ([k'' tx'] & -> & Hin).
    apply elem_of_range in Hin. eauto.
Qed.
End sign_facts.

(** ** The forfeit collector: a round from init to pop *)

Section collector_round.
Context `{!TxTreeOps} `{!SortSlice} `{!MapRange VtxoKey string}.
Context {SweepInput : Type} `{!TxBuilder SweepInput}.

Lemma init_forfeitTxs conns requests m :
  forfeitTxs (init conns requests m).2 =
  foldl (λ acc v, <[vtxoKey v := ""]> acc) (forfeitTxs m) (requests ≫= Inputs).
Proof. unfold init. by repeat case_bool_decide. Qed.

Lemma init_connectors conns requests m :
  connectors (init conns requests m).2 = conns.
Proof. unfold init. by repeat case_bool_decide. Qed.

Lemma init_vtxos_perm conns requests m :
  (init conns requests m).1 = None →
  vtxos (init conns requests m).2 ≡ₚ requests ≫= Inputs.
Proof.
  unfold init. repeat case_bool_decide; simpl; intros; try done.
  apply sort_Slice_perm.
Qed.

Lemma range_empty {K V} `{Countable K} `{!MapRange K V} :
  range (∅ : gmap K V) = [].
Proof. apply Permutation_nil_r. by rewrite (range_perm ∅), map_to_list_empty. Qed.

(** X14.  [init] blanks the forfeit of every input vtxo of the batch, also one
    that was signed before, and keeps the entries of all other vtxos: it does
    not clear the map.  It does so and records the connector tree even when it
    returns an error.  So after [init] with a batch that has input vtxos the
    collector is not all signed and [pop] reports a missing forfeit. *)
Theorem init_blanks_forfeits (conns : TxTree) (requests : list TxRequest)
    (m : forfeitTxsMap) :
  (∀ k, forfeitTxs (init conns requests m).2 !! k =
        if bool_decide (k ∈ vtxoKey <$> (requests ≫= Inputs)) then Some ""
        else forfeitTxs m !! k)
  ∧ connectors (init conns requests m).2 = conns
  ∧ (requests ≫= Inputs ≠ [] →
     allSigned (init conns requests m).2 = false
     ∧ ∃ k, (forfeits_pop (init conns requests m).2).1
            = inl (ErrMissingForfeit k))
  ∧ (requests ≫= Inputs = [] →
     (init conns requests m).1 = None
     ∧ forfeitTxs (init conns requests m).2 = forfeitTxs m
     ∧ connectorsIndex (init conns requests m).2 = ∅).
Proof.
  assert (∀ k, forfeitTxs (init conns requests m).2 !! k =
        if bool_decide (k ∈ vtxoKey <$> (requests ≫= Inputs)) then Some ""
        else forfeitTxs m !! k) as Hlook.
  { intros k. rewrite init_forfeitTxs. apply init_forfeitTxs_lookup. }
  split; [done|]. split; [apply init_connectors|]. split.
  - intros Hne.
    assert (∃ k, forfeitTxs (init conns requests m).2 !! k = Some "")
      as [k Hk].
    { destruct (requests ≫= Inputs) as [|v vs] eqn:Hvs; [done|].
      exists (vtxoKey v). rewrite Hlook, ?Hvs.
      rewrite bool_decide_eq_true_2; [done|]. rewrite fmap_cons. left. }
    split.
    + destruct (allSigned _) eqn:Hall; [|done]. exfalso.
      unfold allSigned in Hall. rewrite all_nonempty_spec in Hall.
      apply (Hall k ""); [by apply elem_of_range|done].
    + destruct (collect_forfeits_missing
                  (range (forfeitTxs (init conns requests m).2)) [])
        as (k' & Hk' & _); [|by exists k'].
      exists k. by apply elem_of_range.
  - intros Hnil. unfold init. rewrite Hnil. simpl. done.
Qed.

(** X15.  A whole round of the collector.  A fresh collector is initialised with a
    batch that has input vtxos; the builder then verifies a submission and
    returns a non-empty forfeit for every input vtxo of the batch and for no
    other vtxo.  After [sign] the collector is all signed, and [pop] returns
    exactly the verified forfeits. *)
Theorem collector_round (conns : TxTree) (requests : list TxRequest)
    (txs : list string) (valid : gmap VtxoKey string) :
  let m1 := (init conns requests newForfeitTxsMap).2 in
  (init conns requests newForfeitTxsMap).1 = None →
  requests ≫= Inputs ≠ [] → conns ≠ [] → txs ≠ [] →
  VerifyForfeitTxs (vtxos m1) conns txs (connectorsIndex m1) = inr valid →
  (∀ k, is_Some (valid !! k) ↔ k ∈ vtxoKey <$> (requests ≫= Inputs)) →
  (∀ k tx, valid !! k = Some tx → tx ≠ "") →
  (sign txs m1).1 = None
  ∧ forfeitTxs (sign txs m1).2 = valid
  ∧ allSigned (sign txs m1).2 = true
  ∧ ∃ popped, (forfeits_pop (sign txs m1).2).1 = inr popped
              ∧ popped ≡ₚ (map_to_list valid).*2.
Proof.
  intros m1 Hinit Hinputs Hconns Htxs Hverify Hdom Hnonempty.
  assert (∀ k, forfeitTxs m1 !! k =
            if bool_decide (k ∈ vtxoKey <$> (requests ≫= Inputs)) then Some ""
            else None) as Hblank.
  { intros k. unfold m1. rewrite init_forfeitTxs, init_forfeitTxs_lookup.
    case_bool_decide; [done|]. apply lookup_empty. }
  assert (connectors m1 = conns) as Hc by apply init_connectors.
  assert (vtxos m1 ≠ []) as Hv.
  { intros Hnil. pose proof (init_vtxos_perm conns requests newForfeitTxsMap Hinit)
      as Hperm. fold m1 in Hperm. rewrite Hnil in Hperm.
    by apply Permutation_nil_l in Hperm. }
  assert (sign txs m1 =
          ((store_forfeits (range valid) (forfeitTxs m1)).1,
           mkForfeits (store_forfeits (range valid) (forfeitTxs m1)).2
             (connectors m1) (connectorsIndex m1) (vtxos m1))) as Hsign.
  { unfold sign. rewrite Hc, Hverify.
    rewrite bool_decide_eq_false_2 by (by destruct txs).
    rewrite bool_decide_eq_false_2 by (by destruct (vtxos m1)).
    rewrite bool_decide_eq_false_2 by (by destruct conns). done. }
  destruct (store_forfeits_ok (range valid) (forfeitTxs m1))
    as (Herr & Hstored & Hrest); [apply NoDup_fst_range| |].
  { intros k tx Hk%elem_of_range. rewrite Hblank.
    rewrite bool_decide_eq_true_2; [eauto|]. apply Hdom. eauto. }
  assert (forfeitTxs (sign txs m1).2 = valid) as Hall.
  { rewrite Hsign. simpl. apply map_eq. intros k.
    destruct (valid !! k) as [tx|] eqn:Hk.
    - apply Hstored. by apply elem_of_range.
    - rewrite Hrest.
      + rewrite Hblank. rewrite bool_decide_eq_false_2; [done|].
        intros Hin%Hdom. rewrite Hk in Hin. by destruct Hin.
      + intros ([k' tx] & -> & Hk')%list_elem_of_fmap.
        apply elem_of_range in Hk'. simpl in Hk. congruence. }
  split; [by rewrite Hsign|]. split; [done|]. split.
  - unfold allSigned. rewrite Hall. apply all_nonempty_spec.
    intros k tx Hk%elem_of_range. by eapply Hnonempty.
  - exists ((range valid).*2). unfold forfeits_pop. simpl. rewrite Hall.
    split; [|by rewrite (range_perm valid)].
    rewrite collect_forfeits_all; [done|].
    intros k tx Hk%elem_of_range. by eapply Hnonempty.
Qed.

(** X16.  After [pop] the collector is as when it was made: it counts as all
    signed, a second [pop] returns the empty list without error, and a
    non-empty submission is refused until the next [init]. *)
Theorem collector_after_pop (m : forfeitTxsMap) (txs : list string) :
  (forfeits_pop m).2 = newForfeitTxsMap
  ∧ allSigned (forfeits_pop m).2 = true
  ∧ forfeits_pop (forfeits_pop m).2 = (inr [], newForfeitTxsMap)
  ∧ (txs ≠ [] →
     sign txs (forfeits_pop m).2
     = (Some ErrForfeitsNotInitialized, newForfeitTxsMap)).
Proof.
  split; [done|]. split; [|split].
  - unfold allSigned. simpl. by rewrite range_empty.
  - unfold forfeits_pop. simpl. by rewrite range_empty.
  - intros Hne. unfold sign. simpl.
    by rewrite bool_decide_eq_false_2 by (by destruct txs).
Qed.
End collector_round.

(** ** The set of outpoints ([outpointMap]) and the vtxos a batch spends *)

(** [outpointMap] is a set of outpoint strings behind a lock: its map
    [map[string]struct{}] is a [gset string]. *)
Module outpointMap.

Definition newOutpointMap : gset string := ∅.

Definition add (outpoints : list VtxoKey) (r : gset string) : gset string :=
  foldl (λ s out, {[VtxoKey_String out]} ∪ s) r outpoints.

Definition remove (outpoints : list VtxoKey) (r : gset string) : gset string :=
  foldl (λ s out, s ∖ {[VtxoKey_String out]}) r outpoints.

Definition includes (outpoint : VtxoKey) (r : gset string) : bool :=
  bool_decide (VtxoKey_String outpoint ∈ r).

Fixpoint includesAny (outpoints : list VtxoKey) (r : gset string)
    : bool * string :=
  match outpoints with
  | [] => (false, "")
  | out :: rest =>
    if bool_decide (VtxoKey_String out ∈ r) then (true, VtxoKey_String out)
    else includesAny rest r
  end.

Lemma elem_of_add outpoints r s :
  s ∈ add outpoints r ↔ s ∈ VtxoKey_String <$> outpoints ∨ s ∈ r.
Proof.
  revert r. unfold add. induction outpoints as [|out outs IH]; intros r; simpl.
  - split; [by right|]. intros [Hs|Hs]; [by apply elem_of_nil in Hs|done].
  - rewrite IH, elem_of_union, elem_of_singleton, elem_of_cons. tauto.
Qed.

Lemma elem_of_remove outpoints r s :
  s ∈ remove outpoints r ↔ (s ∉ VtxoKey_String <$> outpoints) ∧ s ∈ r.
Proof.
  revert r. unfold remove. induction outpoints as [|out outs IH]; intros r; simpl.
  - split; [|by intros [_ ?]]. intros Hs. split; [apply not_elem_of_nil|done].
  - rewrite IH, elem_of_difference, elem_of_singleton, not_elem_of_cons. tauto.
Qed.

(** X17.  The outpoint set behaves as a set of outpoint strings: an outpoint is
    included after [add] exactly if it was added or was included before, and
    after [remove] exactly if it was included before and not removed.  Adding
    twice is adding once, and removing what was added to the empty set leaves
    the empty set. *)
Theorem add_remove_includes (outpoints : list VtxoKey) (k : VtxoKey)
    (r : gset string) :
  (includes k (add outpoints r) = true
   ↔ VtxoKey_String k ∈ VtxoKey_String <$> outpoints ∨ includes k r = true)
  ∧ (includes k (remove outpoints r) = true
     ↔ (VtxoKey_String k ∉ VtxoKey_String <$> outpoints) ∧ includes k r = true)
  ∧ includes k newOutpointMap = false
  ∧ add outpoints (add outpoints r) = add outpoints r
  ∧ remove outpoints (remove outpoints r) = remove outpoints r
  ∧ remove outpoints (add outpoints newOutpointMap) = newOutpointMap.
Proof.
  unfold includes. rewrite !bool_decide_eq_true.
  split; [apply elem_of_add|]. split; [apply elem_of_remove|].
  split; [done|]. split; [|split].
  - apply set_eq. intros s. rewrite !elem_of_add. tauto.
  - apply set_eq. intros s. rewrite !elem_of_remove. tauto.
  - apply set_eq. intros s. rewrite elem_of_remove, elem_of_add.
    unfold newOutpointMap. rewrite elem_of_empty. tauto.
Qed.

(** X18.  [includesAny] reports the first outpoint of the list that is in the set,
    by its string, and [(false, "")] exactly when none of them is. *)
Theorem includesAny_first (outpoints : list VtxoKey) (r : gset string) :
  ((includesAny outpoints r).1 = true
   ↔ ∃ k, k ∈ outpoints ∧ includes k r = true)
  ∧ ((includesAny outpoints r).1 = false → (includesAny outpoints r).2 = "")
  ∧ ((includesAny outpoints r).1 = true →
     ∃ i k, outpoints !! i = Some k
       ∧ (includesAny outpoints r).2 = VtxoKey_String k
       ∧ includes k r = true
       ∧ ∀ j k', (j < i)%nat → outpoints !! j = Some k' → includes k' r = false).
Proof.
  unfold includes. induction outpoints as [|out outs IH]; simpl.
  - split; [|done]. split; [done|]. intros (k & Hk & _). by apply elem_of_nil in Hk.
  - destruct IH as (IH1 & IH2 & IH3).
    case_bool_decide as Hin; simpl.
    + split; [|split; [done|]].
      * split; [|done]. intros _. exists out. split; [left|].
        by apply bool_decide_eq_true.
      * intros _. exists 0%nat, out. split; [done|]. split; [done|].
        split; [by apply bool_decide_eq_true|]. intros j k' Hj. lia.
    + split; [|split; [done|]].
      * rewrite IH1. split.
        -- intros (k & Hk & Hinc). exists k. split; [by right|done].
        -- intros (k & [->|Hk]%elem_of_cons & Hinc); [|eauto].
           apply bool_decide_eq_true in Hinc. done.
      * intros Hany. destruct (IH3 Hany) as (i & k & Hi & Hs & Hinc & Hfirst).
        exists (S i), k. split; [done|]. split; [done|]. split; [done|].
        intros [|j] k' Hj Hk'; simpl in Hk'.
        -- injection Hk' as <-. by apply bool_decide_eq_false.
        -- apply (Hfirst j); [lia|done].
Qed.
End outpointMap.

(** [getSpentVtxos]: the outpoints of the inputs of all requests of a batch,
    request by request in the order the map is ranged over. *)
Definition getSpentVtxos `{!MapRange string TxRequest}
    (requests : gmap string TxRequest) : list VtxoKey :=
  range requests ≫= (λ kp, vtxoKey <$> Inputs kp.2).

(** X19.  [getSpentVtxos] lists an outpoint exactly when some request of the batch
    has an input with it, once for every such input; and every outpoint it
    lists is included in the outpoint set after the list is added to it. *)
Theorem getSpentVtxos_all_inputs `{!MapRange string TxRequest}
    (requests : gmap string TxRequest) (r : gset string) :
  getSpentVtxos requests
  ≡ₚ (map_to_list requests).*2 ≫= (λ request, vtxoKey <$> Inputs request)
  ∧ (∀ k, k ∈ getSpentVtxos requests
          ↔ ∃ id request v, requests !! id = Some request
                            ∧ v ∈ Inputs request ∧ vtxoKey v = k)
  ∧ (∀ id request v, requests !! id = Some request → v ∈ Inputs request →
       outpointMap.includes (vtxoKey v)
         (outpointMap.add (getSpentVtxos requests) r) = true).
Proof.
  assert (∀ k, k ∈ getSpentVtxos requests
          ↔ ∃ id request v, requests !! id = Some request
                            ∧ v ∈ Inputs request ∧ vtxoKey v = k) as Hin.
  { intros k. unfold getSpentVtxos. rewrite list_elem_of_bind. split.
    - intros ([id request] & (v & -> & Hv)%list_elem_of_fmap & Hreq%elem_of_range).
      by exists id, request, v.
    - intros (id & request & v & Hreq & Hv & <-). exists (id, request).
      split; [|by apply elem_of_range]. apply list_elem_of_fmap. eauto. }
  split; [|split; [done|]].
  - unfold getSpentVtxos. rewrite list_fmap_bind.
    by rewrite (range_perm requests).
  - intros id request v Hreq Hv. unfold outpointMap.includes.
    apply bool_decide_eq_true, outpointMap.elem_of_add. left.
    apply list_elem_of_fmap. exists (vtxoKey v). split; [done|].
    apply Hin. by exists id, request, v.
Qed.

(** ** The sweeper's traversal: when it ends and what it finds *)

Section traversal_facts.
Context `{!TxTreeOps} `{!WalletService}.
Context {SweepInput : Type} `{!TxBuilder SweepInput}.
Context (schedulerUnit : TimeUnit) (vtxoTree : TxTree).

Lemma find_is_loop fuel :
  vtxoTree ≠ [] →
  findSweepableOutputs fuel schedulerUnit vtxoTree =
  sweep_loop fuel schedulerUnit vtxoTree (default [] (head vtxoTree)) ∅ ∅.
Proof. unfold findSweepableOutputs. by destruct vtxoTree. Qed.

Lemma level_from_rank (rank : Node → nat) :
  (∀ n c, c ∈ next_of vtxoTree n → (rank c < rank n)%nat) →
  ∀ k nodes bound,
    (∀ n, n ∈ nodes → (rank n ≤ bound)%nat) →
    ∀ n, n ∈ level_from vtxoTree nodes k → (rank n + k ≤ bound)%nat.
Proof.
  intros Hrank. induction k as [|k IH]; intros nodes bound Hnodes n Hn.
  - simpl in Hn. specialize (Hnodes n Hn). lia.
  - simpl in Hn.
    destruct bound as [|bound].
    + assert (nodes ≫= next_of vtxoTree = []) as Hnil.
      { destruct (nodes ≫= next_of vtxoTree) as [|c cs] eqn:Hcs; [done|].
        assert (c ∈ nodes ≫= next_of vtxoTree) as Hc by (rewrite Hcs; left).
        apply list_elem_of_bind in Hc as (p & Hc & Hp).
        specialize (Hrank p c Hc). specialize (Hnodes p Hp). lia. }
      rewrite Hnil, level_from_nil in Hn. by apply elem_of_nil in Hn.
    + assert (rank n + k ≤ bound)%nat; [|lia].
      apply (IH (nodes ≫= next_of vtxoTree)); [|done].
      intros c (p & Hc & Hp)%list_elem_of_bind.
      specialize (Hrank p c Hc). specialize (Hnodes p Hp). lia.
Qed.

(** X20.  The traversal ends on every tree in which children lie below their
    parents: if some rank goes down from each confirmed non-leaf node to its
    children and the root level has rank at most [height], the outer loop runs
    at most [height + 1] times, so with that many iterations allowed the
    traversal returns its result or fails with an error. *)
Theorem traversal_ends_within_height (rank : Node → nat) (height fuel : nat) :
  vtxoTree ≠ [] →
  (∀ n height blocktime c,
     IsTransactionConfirmed (nodeTxid n) = inr (true, height, blocktime) →
     Leaf n = false → c ∈ Children vtxoTree (nodeTxid n) →
     (rank c < rank n)%nat) →
  (∀ n, n ∈ default [] (head vtxoTree) → (rank n ≤ height)%nat) →
  (height < fuel)%nat →
  level_from vtxoTree (default [] (head vtxoTree)) (S height) = []
  ∧ ((∃ out, findSweepableOutputs fuel schedulerUnit vtxoTree = Returned out)
     ∨ (∃ e, findSweepableOutputs fuel schedulerUnit vtxoTree = Failed e)).
Proof.
  intros Hne Hrank Hroot Hfuel.
  assert (level_from vtxoTree (default [] (head vtxoTree)) (S height) = [])
    as Hempty.
  { destruct (level_from _ _ (S height)) as [|n l] eqn:Hl; [done|]. exfalso.
    assert (rank n + S height ≤ height)%nat; [|lia].
    apply (level_from_rank rank) with (nodes := default [] (head vtxoTree));
      [|done|rewrite Hl; left].
    intros p c. unfold next_of.
    destruct (IsTransactionConfirmed (nodeTxid p)) as [e|[[[] h] b]] eqn:Hp;
      try (by intros ?%elem_of_nil).
    destruct (Leaf p) eqn:Hleaf; [by intros ?%elem_of_nil|].
    by apply (Hrank p h b). }
  split; [done|]. rewrite find_is_loop by done.
  pose proof (sweep_loop_spec schedulerUnit vtxoTree fuel
                (default [] (head vtxoTree)) ∅ ∅ (cache_ok_empty schedulerUnit))
    as Hloop.
  destruct (sweep_loop _ _ _ _ _ _) as [out|e| |]; [eauto|eauto|done|].
  exfalso. destruct Hloop as [Hnonempty _]. apply Hnonempty.
  apply (level_from_empty_later vtxoTree _ (S height)); [done|lia].
Qed.

(** X21.  Where the wallet reports every inspected transaction confirmed, nothing
    is left to sweep: the traversal returns the empty map. *)
Theorem traversal_all_confirmed (d fuel : nat) :
  vtxoTree ≠ [] → (d ≤ fuel)%nat →
  level_from vtxoTree (default [] (head vtxoTree)) d = [] →
  (∀ n, n ∈ inspected_from vtxoTree (default [] (head vtxoTree)) d →
     ∃ height blocktime,
       IsTransactionConfirmed (nodeTxid n) = inr (true, height, blocktime)) →
  findSweepableOutputs fuel schedulerUnit vtxoTree = Returned ∅.
Proof.
  intros Hne Hd Hempty Hconf. rewrite find_is_loop by done.
  set (root := default [] (head vtxoTree)) in *.
  assert (∀ k, Forall (node_ok schedulerUnit) (level_from vtxoTree root k))
    as Hok.
  { intros k. apply Forall_forall. intros n Hn.
    destruct (decide (k < d)%nat) as [Hlt|Hge].
    - destruct (Hconf n) as (h & b & Hn'); [apply elem_of_inspected_from; eauto|].
      unfold node_ok. by rewrite Hn'.
    - rewrite (level_from_empty_later vtxoTree root d k) in Hn by (done || lia).
      by apply elem_of_nil in Hn. }
  pose proof (sweep_loop_spec schedulerUnit vtxoTree fuel root ∅ ∅
                (cache_ok_empty schedulerUnit)) as Hloop.
  destruct (sweep_loop _ _ _ _ _ _) as [out|e| |].
  - destruct Hloop as (d' & Hd' & Hempty' & _ & ->). f_equal.
    assert (omap (sweep_task schedulerUnit) (inspected_from vtxoTree root d') = [])
      as ->; [|done].
    destruct (omap _ _) as [|c cs] eqn:Hc; [done|]. exfalso.
    assert (c ∈ omap (sweep_task schedulerUnit) (inspected_from vtxoTree root d'))
      as Hin by (rewrite Hc; left).
    apply list_elem_of_omap in Hin as (n & Hn & Htask).
    apply elem_of_inspected_from in Hn as (k & Hk & Hn).
    destruct (decide (k < d)%nat) as [Hlt|Hge].
    + destruct (Hconf n) as (h & b & Hn'); [apply elem_of_inspected_from; eauto|].
      unfold sweep_task in Htask. by rewrite Hn' in Htask.
    + rewrite (level_from_empty_later vtxoTree root d k) in Hn by (done || lia).
      by apply elem_of_nil in Hn.
  - destruct Hloop as (k & _ & Hbad). by destruct Hbad.
  - done.
  - destruct Hloop as [Hnonempty _]. destruct Hnonempty.
    by apply (level_from_empty_later vtxoTree root d fuel).
Qed.

(** X22.  A tree of which nothing is on chain yet: its root is unconfirmed.
    The traversal looks at the root alone.  If the wallet reports the root's
    parent confirmed, it returns one sweep input, the root's, due at the
    parent's block height when the scheduler unit is [BlockHeight] and at the
    parent's block time when it is [UnixTime], plus the root's relative
    timelock; if the wallet does not report the parent confirmed it fails
    with the not-found error naming the parent; an error of the wallet on the
    root, or of the builder, is returned as it is. *)
Theorem traversal_of_unpublished_tree (root : Node) (fuel : nat) :
  head vtxoTree = Some [root] → (0 < fuel)%nat →
  (∀ e, IsTransactionConfirmed (nodeTxid root) = inl e →
     findSweepableOutputs fuel schedulerUnit vtxoTree = Failed e)
  ∧ (∀ height blocktime,
       IsTransactionConfirmed (nodeTxid root) = inr (false, height, blocktime) →
       ((∀ h b, IsTransactionConfirmed (ParentTxid root) ≠ inr (true, h, b)) →
        findSweepableOutputs fuel schedulerUnit vtxoTree
        = Failed (ErrTxNotFound (ParentTxid root)))
       ∧ (∀ h b e,
            IsTransactionConfirmed (ParentTxid root) = inr (true, h, b) →
            GetSweepInput root = inl e →
            findSweepableOutputs fuel schedulerUnit vtxoTree = Failed e)
       ∧ (∀ h b expiry input,
            IsTransactionConfirmed (ParentTxid root) = inr (true, h, b) →
            GetSweepInput root = inr (expiry, input) →
            (schedulerUnit = BlockHeight →
             findSweepableOutputs fuel schedulerUnit vtxoTree
             = Returned {[addi64 h (ltValue expiry) := [input]]})
            ∧ (schedulerUnit = UnixTime →
               findSweepableOutputs fuel schedulerUnit vtxoTree
               = Returned {[addi64 b (ltValue expiry) := [input]]}))).
Proof.
  intros Hroot Hfuel. destruct fuel as [|fuel]; [lia|].
  assert (findSweepableOutputs (S fuel) schedulerUnit vtxoTree =
          match check_node schedulerUnit vtxoTree root (mkSweep ∅ ∅ []) with
          | inl err => Failed err
          | inr st =>
            sweep_loop fuel schedulerUnit vtxoTree (newNodesToCheck st)
              (sweepableOutputs st) (blocktimeCache st)
          end) as ->.
  { unfold findSweepableOutputs. destruct vtxoTree as [|level rest]; [done|].
    simpl in Hroot. injection Hroot as ->. simpl.
    by destruct (check_node schedulerUnit _ root _). }
  unfold check_node. split.
  - intros e ->. done.
  - intros height blocktime ->. simpl. rewrite lookup_empty.
    destruct (IsTransactionConfirmed (ParentTxid root))
      as [e|[[[] hp] bp]]; (split; [|split]); try done.
    + intros Hnot. by destruct (Hnot hp bp).
    + intros h b e [= <- <-] ->. done.
    + intros h b expiry input [= <- <-] ->. simpl.
      rewrite lookup_insert_eq, lookup_empty. simpl.
      split; intros ->; simpl; by destruct fuel.
Qed.
End traversal_facts.

(** ** The note repository on SQLite ([noteRepository.Add]) *)

(** What [Add] takes from the rest of package [sqlitedb]: the number of
    retries and the test for a conflict error, which [Add] also applies to the
    [nil] error. *)
Class SqliteRetry := {
  maxRetries : Z;
  isConflictError : option error → bool
}.

Section note_repository.
Context `{!SqliteRetry}.

(** The retry loop of [Add], run at most [fuel] times: [answers i] is what the
    [i]-th call of [InsertNote] returns, [calls] counts the calls made so far.
    [None] is the bound on the iterations being too small. *)
Fixpoint retry_loop (fuel : nat) (answers : nat → option error)
    (err : option error) (attempts : Z) (calls : nat)
    : option (option error * nat) :=
  match fuel with
  | O =>
    if isConflictError err && bool_decide (attempts ≤ maxRetries) then None
    else Some (err, calls)
  | S fuel' =>
    if isConflictError err && bool_decide (attempts ≤ maxRetries) then
      retry_loop fuel' answers (answers calls) (attempts + 1) (S calls)
    else Some (err, calls)
  end.

(** [Add]: the error returned and the number of calls of [InsertNote]. *)
Definition Add (fuel : nat) (answers : nat → option error)
    : option (option error * nat) :=
  match answers 0%nat with
  | Some err =>
    if isConflictError (Some err) then retry_loop fuel answers (Some err) 1 1
    else Some (Some err, 1%nat)
  | None => Some (None, 1%nat)
  end.

Lemma retry_loop_spec fuel answers err attempts calls :
  attempts = Z.of_nat calls → (1 ≤ calls ≤ 1 + Z.to_nat maxRetries)%nat →
  err = answers (calls - 1)%nat →
  (∀ i, (i < calls - 1)%nat → isConflictError (answers i) = true) →
  (Z.to_nat maxRetries + 1 ≤ fuel + calls)%nat →
  ∃ err' calls',
    retry_loop fuel answers err attempts calls = Some (err', calls')
    ∧ (1 ≤ calls' ≤ 1 + Z.to_nat maxRetries)%nat
    ∧ err' = answers (calls' - 1)%nat
    ∧ (∀ i, (i < calls' - 1)%nat → isConflictError (answers i) = true)
    ∧ (isConflictError err' = true → calls' = (1 + Z.to_nat maxRetries)%nat).
Proof.
  revert err attempts calls.
  induction fuel as [|fuel IH];
    intros err attempts calls Hatt Hcalls Herr Hprev Hfuel.
  - assert (isConflictError err && bool_decide (attempts ≤ maxRetries) = false)
      as Hstop.
    { apply andb_false_iff. right. apply bool_decide_eq_false. lia. }
    simpl. rewrite Hstop. exists err, calls.
    split; [done|]. split; [done|]. split; [done|]. split; [done|]. lia.
  - simpl. destruct (isConflictError err) eqn:Hconf; simpl.
    + case_bool_decide as Hmore.
      * apply IH; [lia|lia|by rewrite Nat.sub_succ, Nat.sub_0_r| |lia].
        intros i Hi. destruct (decide (i < calls - 1)%nat) as [Hlt|Hge].
        -- by apply Hprev.
        -- assert (i = (calls - 1)%nat) as -> by lia. by rewrite <-Herr.
      * exists err, calls.
        split; [done|]. split; [done|]. split; [done|]. split; [done|]. lia.
    + exists err, calls.
      split; [done|]. split; [done|]. split; [done|]. split; [done|].
      congruence.
Qed.

(** X23.  [Add] gives up: it calls [InsertNote] at least once and at most
    [1 + maxRetries] times, calls it again only after an error that is a
    conflict, and returns what the last call returned.  If what it returns is
    still a conflict, all [maxRetries] retries have been used; an error that
    is no conflict is returned at once. *)
Theorem Add_retries_on_conflict (fuel : nat) (answers : nat → option error) :
  (Z.to_nat maxRetries ≤ fuel)%nat →
  ∃ err calls,
    Add fuel answers = Some (err, calls)
    ∧ (1 ≤ calls ≤ 1 + Z.to_nat maxRetries)%nat
    ∧ err = answers (calls - 1)%nat
    ∧ (∀ i, (i < calls - 1)%nat → isConflictError (answers i) = true)
    ∧ (∀ e, err = Some e → isConflictError err = true →
         calls = (1 + Z.to_nat maxRetries)%nat)
    ∧ (isConflictError (answers 0%nat) = false ∨ answers 0%nat = None →
       calls = 1%nat).
Proof.
  intros Hfuel. unfold Add. destruct (answers 0%nat) as [e|] eqn:H0.
  - destruct (isConflictError (Some e)) eqn:Hconf.
    + destruct (retry_loop_spec fuel answers (Some e) 1 1)
        as (err' & calls' & Hloop & Hcalls & Herr & Hprev & Hlast);
        [done|lia|done|intros i Hi; lia|lia|].
      exists err', calls'. split; [done|]. split; [done|]. split; [done|].
      split; [done|]. split; [by intros e' _ ?; apply Hlast|].
      intros [?|?]; congruence.
    + exists (Some e), 1%nat.
      split; [done|]. split; [lia|]. split; [done|].
      split; [intros i Hi; lia|]. split; [|done]. intros e' [= <-]. congruence.
  - exists None, 1%nat.
    split; [done|]. split; [lia|]. split; [done|].
    split; [intros i Hi; lia|]. split; [|done]. intros e' ?. done.
Qed.
End note_repository.

(** ** The receivers of the signing tests ([musig2_test.go]) *)

(** [tree.Leaf]: a receiver of the vtxo tree; [Musig2Data] is a pointer. *)
Record treeLeaf := mkLeaf {
  Script : string;
  leafAmount : Z;
  Musig2Data : option Musig2
}.

(** [withSigningType]: [None] is the nil dereference of a receiver without
    musig2 data. *)
Fixpoint withSigningType (signingType : SigningType) (receivers : list treeLeaf)
    : option (list treeLeaf) :=
  match receivers with
  | [] => Some []
  | receiver :: rest =>
    match Musig2Data receiver with
    | None => None
    | Some data =>
      match withSigningType signingType rest with
      | None => None
      | Some newReceivers =>
        Some (mkLeaf (Script receiver) (leafAmount receiver)
                (Some (mkMusig2 (CosignersPublicKeys data) signingType))
              :: newReceivers)
      end
    end
  end.

(** [withMixedSigningTypes]: the first half signs all, the rest its branch. *)
Definition withMixedSigningTypes (receivers : list treeLeaf)
    : option (list treeLeaf) :=
  match withSigningType SignAll (take (length receivers / 2) receivers) with
  | None => None
  | Some first =>
    match withSigningType SignBranch (drop (length receivers / 2) receivers) with
    | None => None
    | Some second => Some (first ++ second)
    end
  end.

Lemma withSigningType_lookup signingType receivers :
  Forall (λ r, is_Some (Musig2Data r)) receivers →
  ∃ out, withSigningType signingType receivers = Some out
    ∧ length out = length receivers
    ∧ ∀ i r, receivers !! i = Some r →
        ∃ data, Musig2Data r = Some data
          ∧ out !! i = Some (mkLeaf (Script r) (leafAmount r)
              (Some (mkMusig2 (CosignersPublicKeys data) signingType))).
Proof.
  induction 1 as [|r receivers [data Hdata] Hall (out & Hout & Hlen & Hlook)].
  - exists []. split; [done|]. split; [done|]. intros i r Hi.
    by rewrite lookup_nil in Hi.
  - simpl. rewrite Hdata, Hout. eexists. split; [done|]. split; [simpl; lia|].
    intros [|i] r' Hi; simpl in *.
    + injection Hi as <-. by exists data.
    + by apply Hlook.
Qed.

(** X24.  On receivers that all carry musig2 data, [withMixedSigningTypes] keeps
    the number of receivers and, position by position, their scripts, amounts
    and cosigner keys; it sets the signing type to [SignAll] for the first
    [n / 2] receivers and to [SignBranch] for the others.  A receiver without
    musig2 data makes it panic. *)
Theorem withMixedSigningTypes_halves (receivers : list treeLeaf) :
  (Forall (λ r, is_Some (Musig2Data r)) receivers →
   ∃ out, withMixedSigningTypes receivers = Some out
     ∧ length out = length receivers
     ∧ ∀ i r, receivers !! i = Some r →
         ∃ data, Musig2Data r = Some data
           ∧ out !! i = Some (mkLeaf (Script r) (leafAmount r)
               (Some (mkMusig2 (CosignersPublicKeys data)
                        (if bool_decide (i < length receivers / 2)%nat
                         then SignAll else SignBranch)))))
  ∧ (Exists (λ r, Musig2Data r = None) receivers →
     withMixedSigningTypes receivers = None).
Proof.
  set (h := (length receivers / 2)%nat).
  assert (h ≤ length receivers)%nat as Hh.
  { unfold h. apply Nat.Div0.div_le_upper_bound. lia. }
  split.
  - intros Hall. unfold withMixedSigningTypes. fold h.
    destruct (withSigningType_lookup SignAll (take h receivers))
      as (first & Hfirst & Hlen1 & Hlook1); [by apply Forall_take|].
    destruct (withSigningType_lookup SignBranch (drop h receivers))
      as (second & Hsecond & Hlen2 & Hlook2); [by apply Forall_drop|].
    rewrite Hfirst, Hsecond. exists (first ++ second). split; [done|].
    rewrite length_take in Hlen1. rewrite length_drop in Hlen2.
    split; [rewrite length_app; lia|].
    intros i r Hi. case_bool_decide as Hlt.
    + rewrite lookup_app_l by lia. apply Hlook1.
      by rewrite lookup_take_lt.
    + rewrite lookup_app_r by lia.
      replace (length first) with h by lia. apply Hlook2.
      rewrite lookup_drop. by replace (h + (i - h))%nat with i by lia.
  - intros Hex. unfold withMixedSigningTypes. fold h.
    assert (∀ st l, Exists (λ r, Musig2Data r = None) l →
                    withSigningType st l = None) as Hpanic.
    { intros st l. induction 1 as [r l Hr|r l Hl IH]; simpl.
      - by rewrite Hr.
      - rewrite IH. by destruct (Musig2Data r). }
    rewrite <-(take_drop h receivers) in Hex.
    apply Exists_app in Hex as [Hex|Hex].
    + by rewrite (Hpanic _ _ Hex).
    + rewrite (Hpanic SignBranch _ Hex). by destruct (withSigningType SignAll _).
Qed.

(** * Examples for the further operations *)

(** The ids of the example queue are its keys. *)
Lemma queue_ops_keep_ids_witness :
  run_ops busy_ops ∅ !! "a" = Some entry_a ∧ Id (txRequest entry_a) = "a".
Proof.
  assert (run_ops busy_ops ∅ !! "a" = Some entry_a) as Ha
    by (vm_compute; reflexivity).
  split; [exact Ha|].
  exact (queue_ops_keep_ids busy_ops "a" entry_a Ha).
Defined.

(** [a] of the example queue changes its receiver. *)
Definition request_a' : TxRequest :=
  mkTxRequest "a" [mkVtxo (mkVtxoKey "t1" 0) 1000] [mkReceiver "carol" 1000].

Lemma update_touches_one_entry_witness :
  busy_queue !! Id request_a' = Some entry_a
  ∧ (update request_a' None busy_queue).1 = None
  ∧ dom (update request_a' None busy_queue).2 = dom busy_queue
  ∧ (update request_a' None busy_queue).2 !! "b" = busy_queue !! "b".
Proof.
  assert (busy_queue !! Id request_a' = Some entry_a) as Ha
    by (vm_compute; reflexivity).
  split; [exact Ha|]. split; [vm_compute; reflexivity|].
  destruct (update_touches_one_entry request_a' None busy_queue entry_a Ha)
    as (_ & Hdom & Hother & _).
  split; [exact Hdom|]. apply Hother. discriminate.
Defined.

(** Popping every request of the example queue and then one more. *)
Lemma pop_all_then_pop_witness :
  wf_queue busy_queue
  ∧ pop 8 1 (pop 8 (-1) busy_queue).2
    = (mkPopped [] [] [] [] [], (pop 8 (-1) busy_queue).2).
Proof.
  split; [exact wf_busy_queue|].
  exact (proj1 (pop_all_then_pop 8 1 busy_queue wf_busy_queue)).
Defined.

(** [pop(0)] on the example queue. *)
Lemma pop_zero_only_cleans_witness :
  wf_queue busy_queue ∧ (pop 8 0 busy_queue).1 = mkPopped [] [] [] [] [].
Proof.
  split; [exact wf_busy_queue|].
  exact (proj1 (pop_zero_only_cleans 8 busy_queue wf_busy_queue)).
Defined.

(** [c] is registered with a note at time 7 and gets its receiver later; six
    minutes after the start it is popped only if it was pinged. *)
Definition request_c' : TxRequest :=
  mkTxRequest "c" [] [mkReceiver "carol" 100].

Definition six_minutes : Z := 6 * nanosPerMinute.

Lemma notes_request_needs_ping_witness :
  (pushWithNotes 7 request_c [mkNote 1 100] ∅).1 = None
  ∧ (update request_c' None (pushWithNotes 7 request_c [mkNote 1 100] ∅).2).1
    = None
  ∧ (request_c' ∉ poppedRequests
       (pop six_minutes (-1)
          (update request_c' None
             (pushWithNotes 7 request_c [mkNote 1 100] ∅).2).2).1)
  ∧ request_c' ∈ poppedRequests
      (pop six_minutes (-1)
         (updatePingTimestamp six_minutes "c"
            (update request_c' None
               (pushWithNotes 7 request_c [mkNote 1 100] ∅).2).2).2).1.
Proof.
  assert ((pushWithNotes 7 request_c [mkNote 1 100] ∅).1 = None) as Hpush
    by (vm_compute; reflexivity).
  assert ((update request_c' None
             (pushWithNotes 7 request_c [mkNote 1 100] ∅).2).1 = None) as Hupd
    by (vm_compute; reflexivity).
  split; [exact Hpush|]. split; [exact Hupd|].
  destruct (notes_request_needs_ping 7 six_minutes six_minutes (-1)
              request_c request_c' [mkNote 1 100] None ∅ wf_queue_empty Hpush
              eq_refl) as [[_ Hnot] Hin];
    [discriminate|exact Hupd|vm_compute; reflexivity|].
  split; [exact Hnot|]. apply Hin; [vm_compute; discriminate|lia].
Defined.

(** [b] is pushed at time 3 and [a] at time 5: [pop(1)] at time 8 takes
    [b]. *)
Lemma first_pushed_first_popped_witness :
  (push 5 request_a [] [] None (push 3 request_b [] [] None ∅).2).1 = None
  ∧ (pop 8 1 (push 5 request_a [] [] None (push 3 request_b [] [] None ∅).2).2).1
    = mkPopped [request_b] [] [] [None] []
  ∧ (pop 8 1 (push 5 request_a [] [] None (push 3 request_b [] [] None ∅).2).2).2
    = {["a" := entry_a]}.
Proof.
  assert ((push 5 request_a [] [] None (push 3 request_b [] [] None ∅).2).1
          = None) as Hpush by (vm_compute; reflexivity).
  split; [exact Hpush|].
  apply (first_pushed_first_popped 3 5 8 request_b request_a [] [] [] []
           None None); [lia|vm_compute; discriminate|discriminate|discriminate|].
  exact Hpush.
Defined.

(** The example queue after a pop, a ping and a deletion. *)
Definition mixed_ops : list queue_op :=
  busy_ops ++ [OpPop 8 1; OpUpdatePing 9 "a"; OpDelete ["c"]].

Lemma queue_stays_disjoint_witness :
  Forall keeps_disjoint mixed_ops ∧ unique_queue (run_ops mixed_ops ∅).
Proof.
  assert (Forall keeps_disjoint mixed_ops) as Hops by (repeat constructor).
  split; [exact Hops|].
  exact (queue_stays_disjoint mixed_ops Hops).
Defined.

(** ** A round of the forfeit collector *)

(** A builder that takes the forfeits to be valid and in the order of the
    vtxos to sign: the [i]-th forfeit spends the [i]-th vtxo. *)
Definition pairing_builder : TxBuilder string := {|
  GetSweepInput node := inr (mkLocktime LocktimeTypeBlock 144, nodeTxid node);
  VerifyForfeitTxs vtxos _ txs _ := inr (list_to_map (zip (vtxoKey <$> vtxos) txs))
|}.

Definition example_forfeits : gmap VtxoKey string :=
  {[mkVtxoKey "t1" 0 := "forfeit1"; mkVtxoKey "t2" 0 := "forfeit2"]}.

Lemma example_forfeits_lookup k :
  example_forfeits !! k =
  if decide (k = mkVtxoKey "t1" 0) then Some "forfeit1"
  else if decide (k = mkVtxoKey "t2" 0) then Some "forfeit2" else None.
Proof.
  unfold example_forfeits.
  destruct (decide (k = mkVtxoKey "t1" 0)) as [->|H1];
    [by rewrite lookup_insert_eq|].
  rewrite lookup_insert_ne by done.
  destruct (decide (k = mkVtxoKey "t2" 0)) as [->|H2];
    [by rewrite lookup_singleton_eq|].
  by rewrite lookup_singleton_ne.
Qed.

(** The collector of the example batch receives both forfeits. *)
Lemma sign_stores_verified_witness :
  @VerifyForfeitTxs _ pairing_builder
    (vtxos (init example_connectors example_batch newForfeitTxsMap).2)
    (connectors (init example_connectors example_batch newForfeitTxsMap).2)
    ["forfeit1"; "forfeit2"]
    (connectorsIndex (init example_connectors example_batch newForfeitTxsMap).2)
  = inr example_forfeits
  ∧ (@sign _ _ pairing_builder ["forfeit1"; "forfeit2"]
       (init example_connectors example_batch newForfeitTxsMap).2).1 = None
  ∧ forfeitTxs
      (@sign _ _ pairing_builder ["forfeit1"; "forfeit2"]
         (init example_connectors example_batch newForfeitTxsMap).2).2
    !! mkVtxoKey "t2" 0 = Some "forfeit2".
Proof.
  set (m := (init example_connectors example_batch newForfeitTxsMap).2).
  assert (@VerifyForfeitTxs _ pairing_builder (vtxos m) (connectors m)
            ["forfeit1"; "forfeit2"] (connectorsIndex m)
          = inr example_forfeits) as Hvalid by (vm_compute; reflexivity).
  split; [exact Hvalid|].
  destruct (@sign_stores_verified _ _ pairing_builder
              ["forfeit1"; "forfeit2"] m example_forfeits) as [Hok _];
    [discriminate|vm_compute; discriminate|discriminate|exact Hvalid|].
  destruct Hok as [Hnone Hlook].
  - intros k. rewrite example_forfeits_lookup.
    destruct (decide (k = mkVtxoKey "t1" 0)) as [->|_];
      [intros _; vm_compute; eauto|].
    destruct (decide (k = mkVtxoKey "t2" 0)) as [->|_];
      [intros _; vm_compute; eauto|].
    by intros [? ?].
  - split; [exact Hnone|]. rewrite Hlook. reflexivity.
Defined.

(** The whole round on the example batch: [init], [sign], [allSigned] and
    [pop]. *)
Lemma collector_round_witness :
  (init example_connectors example_batch newForfeitTxsMap).1 = None
  ∧ (@sign _ _ pairing_builder ["forfeit1"; "forfeit2"]
       (init example_connectors example_batch newForfeitTxsMap).2).1 = None
  ∧ allSigned
      (@sign _ _ pairing_builder ["forfeit1"; "forfeit2"]
         (init example_connectors example_batch newForfeitTxsMap).2).2 = true.
Proof.
  assert ((init example_connectors example_batch newForfeitTxsMap).1 = None)
    as Hinit by (vm_compute; reflexivity).
  split; [exact Hinit|].
  destruct (@collector_round _ _ _ _ pairing_builder example_connectors
              example_batch ["forfeit1"; "forfeit2"] example_forfeits Hinit)
    as (Hnone & _ & Hall & _);
    [discriminate|discriminate|discriminate|vm_compute; reflexivity| | |].
  - intros k. rewrite example_forfeits_lookup.
    change (vtxoKey <$> example_batch ≫= Inputs)
      with [mkVtxoKey "t2" 0; mkVtxoKey "t1" 0].
    destruct (decide (k = mkVtxoKey "t1" 0)) as [->|H1].
    { split; [intros _; apply elem_of_cons; right; apply elem_of_cons; by left
             |eauto]. }
    destruct (decide (k = mkVtxoKey "t2" 0)) as [->|H2].
    { split; [intros _; apply elem_of_cons; by left|eauto]. }
    split; [by intros [? ?]|].
    intros Hk. apply elem_of_cons in Hk as [->|Hk]; [done|].
    apply elem_of_cons in Hk as [->|Hk]; [done|]. by apply elem_of_nil in Hk.
  - intros k tx. rewrite example_forfeits_lookup.
    destruct (decide (k = mkVtxoKey "t1" 0)); [by intros [= <-]|].
    destruct (decide (k = mkVtxoKey "t2" 0)); [by intros [= <-]|done].
  - split; [exact Hnone|exact Hall].
Defined.

(** ** Traversals of small trees *)

(** In the example tree the rank of a transaction is its height above the
    leaves; the round transaction is above the root. *)
Definition example_rank (n : Node) : nat :=
  if bool_decide (nodeTxid n = "round") then 2%nat
  else if bool_decide (nodeTxid n = "n0") then 1%nat else 0%nat.

Lemma traversal_ends_within_height_witness :
  level_from example_vtxo_tree (default [] (head example_vtxo_tree)) 2 = []
  ∧ ((∃ out, findSweepableOutputs 5 BlockHeight example_vtxo_tree = Returned out)
     ∨ (∃ e, findSweepableOutputs 5 BlockHeight example_vtxo_tree = Failed e)).
Proof.
  apply (traversal_ends_within_height BlockHeight example_vtxo_tree
           example_rank 1 5).
  - discriminate.
  - intros n height blocktime c Hconf _ Hc. unfold example_rank.
    simpl in Hconf.
    case_bool_decide as Hround.
    + rewrite Hround in Hc. vm_compute in Hc.
      apply elem_of_cons in Hc as [->|Hc]; [simpl; lia|].
      by apply elem_of_nil in Hc.
    + case_bool_decide as Hroot; [|discriminate].
      rewrite Hroot in Hc. vm_compute in Hc.
      apply elem_of_cons in Hc as [->|Hc]; [simpl; lia|].
      apply elem_of_cons in Hc as [->|Hc]; [simpl; lia|].
      by apply elem_of_nil in Hc.
  - intros n Hn. simpl in Hn.
    apply elem_of_cons in Hn as [->|Hn]; [vm_compute; lia|].
    by apply elem_of_nil in Hn.
  - lia.
Defined.

(** A tree of one transaction, which the wallet of the example reports
    confirmed: nothing is left to sweep. *)
Definition published_tree : TxTree := [[mkNode "n0" "" "round" true]].

Lemma traversal_all_confirmed_witness :
  level_from published_tree (default [] (head published_tree)) 1 = []
  ∧ findSweepableOutputs 5 BlockHeight published_tree = Returned ∅.
Proof.
  assert (level_from published_tree (default [] (head published_tree)) 1 = [])
    as Hend by (vm_compute; reflexivity).
  split; [exact Hend|].
  apply (traversal_all_confirmed BlockHeight published_tree 1 5);
    [discriminate|lia|exact Hend|].
  intros n Hn. vm_compute in Hn.
  apply elem_of_cons in Hn as [->|Hn]; [|by apply elem_of_nil in Hn].
  exists 101, 1700000600. reflexivity.
Defined.

(** A tree whose only transaction is not on chain, its parent being confirmed
    at height 101. *)
Definition unpublished_tree : TxTree := [[mkNode "n1" "" "n0" true]].

Lemma traversal_of_unpublished_tree_witness :
  head unpublished_tree = Some [mkNode "n1" "" "n0" true]
  ∧ findSweepableOutputs 1 BlockHeight unpublished_tree
    = Returned {[245 := ["n1"]]}
  ∧ findSweepableOutputs 1 UnixTime unpublished_tree
    = Returned {[1700000744 := ["n1"]]}.
Proof.
  split; [reflexivity|]. split.
  - destruct (traversal_of_unpublished_tree BlockHeight unpublished_tree
                (mkNode "n1" "" "n0" true) 1 eq_refl) as [_ Hunconfirmed]; [lia|].
    destruct (Hunconfirmed 0 0 eq_refl) as (_ & _ & Hsweep).
    exact (proj1 (Hsweep 101 1700000600 (mkLocktime LocktimeTypeBlock 144) "n1"
                    eq_refl eq_refl) eq_refl).
  - destruct (traversal_of_unpublished_tree UnixTime unpublished_tree
                (mkNode "n1" "" "n0" true) 1 eq_refl) as [_ Hunconfirmed]; [lia|].
    destruct (Hunconfirmed 0 0 eq_refl) as (_ & _ & Hsweep).
    exact (proj2 (Hsweep 101 1700000600 (mkLocktime LocktimeTypeBlock 144) "n1"
                    eq_refl eq_refl) eq_refl).
Defined.

(** ** Retries of the note repository *)

(** Three retries; a conflict is the error of a locked database. *)
#[global] Instance example_retry : SqliteRetry := {|
  maxRetries := 3;
  isConflictError err :=
    match err with
    | Some (ErrExternal msg) => bool_decide (msg = "database is locked")
    | _ => false
    end
|}.

(** The database is locked for the first two calls. *)
Definition locked_twice (i : nat) : option error :=
  if bool_decide (i < 2)%nat then Some (ErrExternal "database is locked")
  else None.

Lemma Add_retries_on_conflict_witness :
  (Z.to_nat maxRetries ≤ 3)%nat
  ∧ Add 3 locked_twice = Some (None, 3%nat)
  ∧ ∃ err calls, Add 3 locked_twice = Some (err, calls)
      ∧ (1 ≤ calls ≤ 1 + Z.to_nat maxRetries)%nat.
Proof.
  assert (Z.to_nat maxRetries ≤ 3)%nat as Hfuel by (vm_compute; lia).
  split; [exact Hfuel|]. split; [vm_compute; reflexivity|].
  destruct (Add_retries_on_conflict 3 locked_twice Hfuel)
    as (err & calls & HAdd & Hcalls & _).
  exists err, calls. split; [exact HAdd|exact Hcalls].
Defined.
